(** * Sweep (lawnmower) path planning: a shallow embedding of
      [path_planning.py] and the properties of its planner.

    Numbers.  Python floats are modelled by exact rationals ([Q]): every
    finite float is a rational, [//] on floats is the floor of the exact
    quotient, and the comparisons are the rational ones.  The planner
    ([generate_sweep_waypoints]) computes without rounding.  Where the
    rounding of a sum decides what the program does, the number of rounds
    of the scan loop and the UTM zone, the loop and [get_utm_crs] are
    modelled a second time with the rounding as a parameter
    ([scan_loop_fl], [get_utm_crs_fl]), and [Binary64.round] is the
    rounding of Python's floats.

    Libraries.  [shapely] (planar geometry) and [pyproj] (map projections)
    are not part of the program.  The parts of shapely that are plain
    arithmetic ([bounds], [centroid], [length], [interpolate], the
    coordinate-wise [transform]) are written out; polygon validity and the
    line/polygon intersection are an interface ([GeometryKernel]) with an
    exact instance ([ExactKernel]) used to run the planner; the projection
    is an interface ([Projector]). *)

From Stdlib Require Import QArith Qround Qabs Qminmax ZArith List Bool String.
From Stdlib Require Import Ascii DecimalString Qpower.
From Stdlib Require Import Lia Lqa Permutation Sorted.
Import ListNotations.

Open Scope Q_scope.

(* ------------------------------------------------------------------ *)
(** ** Outcomes of a Python call *)

Inductive exn : Type :=
| ValueError (msg : string)
| ZeroDivisionError (msg : string).

(** A call returns, raises, or is still running when the fuel of the
    model is used up. *)
Inductive outcome (A : Type) : Type :=
| Ok (a : A)
| Raise (e : exn)
| OutOfFuel.

Arguments Ok {A} a.
Arguments Raise {A} e.
Arguments OutOfFuel {A}.

Definition bind {A B : Type} (m : outcome A) (k : A -> outcome B) : outcome B :=
  match m with
  | Ok a => k a
  | Raise e => Raise e
  | OutOfFuel => OutOfFuel
  end.

Notation "x <- m ;; k" := (bind m (fun x => k))
  (at level 61, m at next level, right associativity).

Definition raises {A : Type} (m : outcome A) : Prop := exists e, m = Raise e.

(* ------------------------------------------------------------------ *)
(** ** Python arithmetic on floats *)

Definition Qltb (a b : Q) : bool := negb (Qle_bool b a).

(** [int(x)]: truncation towards zero. *)
Definition py_int (x : Q) : Z :=
  if Qle_bool 0 x then Qfloor x else Qceiling x.

(** [a // b] on floats. *)
Definition py_floordiv (a b : Q) : outcome Q :=
  if Qeq_bool b 0
  then Raise (ZeroDivisionError "float floor division by zero")
  else Ok (inject_Z (Qfloor (a / b))).

(** [a / b] on ints, a float. *)
Definition py_truediv (a b : Z) : outcome Q :=
  if Z.eqb b 0
  then Raise (ZeroDivisionError "division by zero")
  else Ok (inject_Z a / inject_Z b).

(** [range(n)]. *)
Definition range (n : Z) : list Z := map Z.of_nat (seq 0 (Z.to_nat n)).

(* ------------------------------------------------------------------ *)
(** ** Geometry values (shapely) *)

(** A coordinate pair [(x, y)]: [(lon, lat)] in degrees or planar metres. *)
Definition Coord : Type := (Q * Q)%type.

Definition coord_eqb (a b : Coord) : bool :=
  Qeq_bool (fst a) (fst b) && Qeq_bool (snd a) (snd b).

(** A polygon without holes: the coordinates of its closed exterior ring. *)
Record Polygon : Type := mkPolygon { exterior : list Coord }.

(** Every [LineString] of the planner is horizontal: a scan line
    [LineString([(minx, y), (maxx, y)])] or a part of its intersection
    with the polygon.  It runs from [(ls_x0, ls_y)] to [(ls_x1, ls_y)]. *)
Record LineString : Type := mkLineString { ls_y : Q; ls_x0 : Q; ls_x1 : Q }.

(** What [line.intersection(polygon)] can be. *)
Inductive Geometry : Type :=
| GeomEmpty
| GeomPoint (p : Coord)
| GeomMultiPoint (ps : list Coord)
| GeomLineString (l : LineString)
| GeomMultiLineString (ls : list LineString)
| GeomCollection (ps : list Coord) (ls : list LineString).

Definition geom_is_empty (g : Geometry) : bool :=
  match g with
  | GeomEmpty => true
  | GeomMultiPoint [] => true
  | GeomMultiLineString [] => true
  | GeomCollection [] [] => true
  | _ => false
  end.

(** [ring] with its first coordinate repeated at the end, unless it is
    closed already. *)
Definition close_ring (ring : list Coord) : list Coord :=
  match ring with
  | [] => []
  | first :: _ =>
      if coord_eqb first (last ring first) then ring else ring ++ [first]
  end.

(** [Polygon(coords)]: no coordinates give the empty polygon, one or two
    are refused, three or more make a closed ring. *)
Definition Polygon_new (coords : list Coord) : outcome Polygon :=
  match coords with
  | [] => Ok (mkPolygon [])
  | [_] | [_; _] =>
      Raise (ValueError "A LinearRing must have at least 3 coordinate tuples")
  | _ => Ok (mkPolygon (close_ring coords))
  end.

(** The distinct coordinates of a list (the last of equal ones is kept). *)
Fixpoint distinct (l : list Coord) : list Coord :=
  match l with
  | [] => []
  | a :: t => if existsb (coord_eqb a) t then distinct t else a :: distinct t
  end.

Definition is_empty (p : Polygon) : bool :=
  match exterior p with [] => true | _ => false end.

(** Consecutive pairs of a closed ring: its edges. *)
Definition edges (ring : list Coord) : list (Coord * Coord) :=
  combine ring (tl ring).

Definition edge_cross (e : Coord * Coord) : Q :=
  fst (fst e) * snd (snd e) - fst (snd e) * snd (fst e).

Definition Qsum (l : list Q) : Q := fold_right Qplus 0 l.

(** Twice the signed area of a closed ring (shoelace formula). *)
Definition area2 (ring : list Coord) : Q := Qsum (map edge_cross (edges ring)).

(** [polygon.centroid] of a polygon of non-zero area. *)
Definition centroid (p : Polygon) : Coord :=
  let es := edges (exterior p) in
  let a2 := area2 (exterior p) in
  (Qsum (map (fun e => (fst (fst e) + fst (snd e)) * edge_cross e) es)
   / (3 * a2),
   Qsum (map (fun e => (snd (fst e) + snd (snd e)) * edge_cross e) es)
   / (3 * a2)).

(** [polygon.bounds]: [(minx, miny, maxx, maxy)]. *)
Definition bounds (p : Polygon) : Q * Q * Q * Q :=
  match exterior p with
  | [] => (0, 0, 0, 0)
  | c :: cs =>
      (fold_right Qmin (fst c) (map fst cs),
       fold_right Qmin (snd c) (map snd cs),
       fold_right Qmax (fst c) (map fst cs),
       fold_right Qmax (snd c) (map snd cs))
  end.

(** [shapely.ops.transform(func, polygon)]. *)
Definition shapely_transform (func : Coord -> Coord) (p : Polygon) : Polygon :=
  mkPolygon (map func (exterior p)).

(** [line.length]. *)
Definition length (l : LineString) : Q := Qabs (ls_x1 l - ls_x0 l).

(** [line.centroid.y]. *)
Definition centroid_y (l : LineString) : Q := ls_y l.

(** [line.interpolate(distance)]: the point at [distance] from the start
    of the line; a distance beyond the end gives the end, and a negative
    one is measured backwards from the end. *)
Definition interpolate (l : LineString) (distance : Q) : Coord :=
  let len := length l in
  let d := if Qle_bool 0 distance
           then Qmin distance len
           else Qmax (len + distance) 0 in
  if Qeq_bool len 0 then (ls_x0 l, ls_y l)
  else (ls_x0 l + d / len * (ls_x1 l - ls_x0 l), ls_y l).

(** What the planner needs of the geometry library beyond arithmetic. *)
Class GeometryKernel : Type := {
  is_valid : Polygon -> bool;
  intersection : LineString -> Polygon -> Geometry
}.

(* ------------------------------------------------------------------ *)
(** ** Projections (pyproj) *)

Inductive CRS : Type := EPSG (code : Z).

(** [Transformer.from_crs(src, dst, always_xy=True).transform]. *)
Class Projector : Type := {
  from_crs : CRS -> CRS -> Coord -> Coord
}.

(** [get_utm_crs(lat, lon)]. *)
Definition get_utm_crs (lat lon : Q) : CRS :=
  let zone_number := (py_int ((lon + 180) / 6) + 1)%Z in
  if Qle_bool 0 lat
  then EPSG (32600 + zone_number)
  else EPSG (32700 + zone_number).

(* ------------------------------------------------------------------ *)
(** ** The planner: [generate_sweep_waypoints] *)

(** A waypoint [(lon, lat, alt)]. *)
Definition Waypoint : Type := (Q * Q * Q)%type.

(** [sorted(l, key=key)]: a stable sort that compares keys with [<]. *)
Fixpoint insert_by {A : Type} (key : A -> Q) (x : A) (l : list A) : list A :=
  match l with
  | [] => [x]
  | h :: t => if Qltb (key h) (key x) then h :: insert_by key x t
              else x :: h :: t
  end.

Definition sorted {A : Type} (key : A -> Q) (l : list A) : list A :=
  fold_right (insert_by key) [] l.

(** The line strings that the scan loop appends for one intersection
    (lines 66-71): a result of type [LineString], the parts of a result of
    type [MultiLineString] (which [for seg in segment] visits in order, as
    shapely 1 allows), and nothing for a result of any other type. *)
Definition appended (segment : Geometry) : list LineString :=
  if negb (geom_is_empty segment) then
    match segment with
    | GeomLineString l => [l]
    | GeomMultiLineString ls => ls
    | _ => []
    end
  else [].

Section Planner.

Context {K : GeometryKernel} {P : Projector}.

(** The loop [while y <= maxy] of lines 61-72.  Besides [lines] it
    returns the scan lines it built ([scanned]), which the program
    does not keep. *)
Fixpoint scan_loop (fuel : nat) (poly_utm : Polygon) (minx maxx maxy : Q)
    (spacing : Q) (y : Q) (scanned lines : list LineString)
    : outcome (list LineString * list LineString) :=
  match fuel with
  | O => OutOfFuel
  | S fuel' =>
      if Qle_bool y maxy then
        let line := mkLineString y minx maxx in
        let segment := intersection line poly_utm in
        scan_loop fuel' poly_utm minx maxx maxy spacing (y + spacing)
          (scanned ++ [line]) (lines ++ appended segment)
      else Ok (scanned, lines)
  end.

(** The loop [for i in range(num_points)] of lines 80-84. *)
Fixpoint interpolate_loop (project_to_latlon : Coord -> Coord)
    (line : LineString) (length_ : Q) (num_points : Z) (altitude : Q)
    (indices : list Z) (segment_points : list Waypoint)
    : outcome (list Waypoint) :=
  match indices with
  | [] => Ok segment_points
  | i :: rest =>
      t <- py_truediv i (num_points - 1) ;;
      let pt := interpolate line (t * length_) in
      let '(lon, lat) := project_to_latlon (fst pt, snd pt) in
      interpolate_loop project_to_latlon line length_ num_points altitude
        rest (segment_points ++ [(lon, lat, altitude)])
  end.

(** Lines 77-84: the waypoints of one line, in the direction of the line. *)
Definition segment_waypoints (project_to_latlon : Coord -> Coord)
    (waypoint_interval altitude : Q) (line : LineString)
    : outcome (list Waypoint) :=
  let length_ := length line in
  q <- py_floordiv length_ waypoint_interval ;;
  let num_points := Z.max (py_int q + 1) 2 in
  interpolate_loop project_to_latlon line length_ num_points altitude
    (range num_points) [].

(** The loop [for line in lines] of lines 76-88. *)
Fixpoint waypoint_loop (project_to_latlon : Coord -> Coord)
    (waypoint_interval altitude : Q) (lines : list LineString)
    (waypoints : list Waypoint) (reverse : bool) : outcome (list Waypoint) :=
  match lines with
  | [] => Ok waypoints
  | line :: rest =>
      segment_points <-
        segment_waypoints project_to_latlon waypoint_interval altitude line ;;
      let segment_points :=
        if reverse then rev segment_points else segment_points in
      waypoint_loop project_to_latlon waypoint_interval altitude rest
        (waypoints ++ segment_points) (negb reverse)
  end.

(** Lines 55-60: the planar polygon, its bounds and the way back. *)
Definition utm_crs_of (poly_lonlat : Polygon) : CRS :=
  let c := centroid poly_lonlat in
  get_utm_crs (snd c) (fst c).

Definition project_polygon (poly_lonlat : Polygon) : Polygon :=
  shapely_transform (from_crs (EPSG 4326) (utm_crs_of poly_lonlat)) poly_lonlat.

(** Lines 61-72 on a validated polygon: the scan lines built and the
    line strings collected. *)
Definition scan (fuel : nat) (poly_lonlat : Polygon) (spacing : Q)
    : outcome (list LineString * list LineString) :=
  let poly_utm := project_polygon poly_lonlat in
  let '(minx, miny, maxx, maxy) := bounds poly_utm in
  scan_loop fuel poly_utm minx maxx maxy spacing miny [] [].

Definition generate_sweep_waypoints (fuel : nat) (polygon_coords : list Coord)
    (spacing waypoint_interval altitude : Q) : outcome (list Waypoint) :=
  poly_lonlat <- Polygon_new polygon_coords ;;
  if negb (is_valid poly_lonlat) || is_empty poly_lonlat then
    Raise (ValueError "Invalid polygon geometry.")
  else
    let project_to_latlon := from_crs (utm_crs_of poly_lonlat) (EPSG 4326) in
    r <- scan fuel poly_lonlat spacing ;;
    let lines := sorted centroid_y (snd r) in
    waypoint_loop project_to_latlon waypoint_interval altitude lines [] false.

End Planner.

(* ------------------------------------------------------------------ *)
(** ** An exact geometry kernel

    Validity and the intersection of a horizontal line with the closed
    region of a polygon, computed on rationals after the definitions of
    the simple-features model that shapely (GEOS) implements: a ring is
    valid when it has at least three distinct vertices, encloses an area
    and does not touch or cross itself; the intersection with a line is
    the set of maximal covered intervals of the line, with the isolated
    points where the line only touches the region.  A row that runs along
    edges of the ring is one interval here, whatever vertices it passes. *)

Module Exact.

(** [cross o a b]: positive when [o], [a], [b] turn left. *)
Definition cross (o a b : Coord) : Q :=
  (fst a - fst o) * (snd b - snd o) - (snd a - snd o) * (fst b - fst o).

Definition between (a b x : Q) : bool :=
  Qle_bool (Qmin a b) x && Qle_bool x (Qmax a b).

(** [p] lies on the closed segment [e]. *)
Definition on_segment (p : Coord) (e : Coord * Coord) : bool :=
  let (a, b) := e in
  Qeq_bool (cross a b p) 0
  && between (fst a) (fst b) (fst p) && between (snd a) (snd b) (snd p).

(** The abscissa at height [y] of the line through a non-horizontal edge. *)
Definition x_at (e : Coord * Coord) (y : Q) : Q :=
  let (a, b) := e in
  fst a + (y - snd a) * (fst b - fst a) / (snd b - snd a).

(** The ray from [p] towards larger x crosses the edge [e]. *)
Definition ray_crosses (p : Coord) (e : Coord * Coord) : bool :=
  let (a, b) := e in
  negb (Bool.eqb (Qltb (snd p) (snd a)) (Qltb (snd p) (snd b)))
  && Qltb (fst p) (x_at e (snd p)).

(** [p] is in the closed region bounded by [ring]. *)
Definition covers (ring : list Coord) (p : Coord) : bool :=
  existsb (on_segment p) (edges ring)
  || Nat.odd (List.length (filter (ray_crosses p) (edges ring))).

(** Where the line at height [y] meets the edge [e]. *)
Definition crossings (y : Q) (e : Coord * Coord) : list Q :=
  let (a, b) := e in
  if Qeq_bool (snd a) (snd b) then
    if Qeq_bool (snd a) y then [fst a; fst b] else []
  else if between (snd a) (snd b) y then [x_at e y] else [].

(** Insertion into a strictly increasing list. *)
Fixpoint insert_uniq (x : Q) (l : list Q) : list Q :=
  match l with
  | [] => [x]
  | h :: t => if Qltb x h then x :: h :: t
              else if Qeq_bool x h then h :: t
              else h :: insert_uniq x t
  end.

Definition sort_uniq (l : list Q) : list Q := fold_right insert_uniq [] l.

(** A maximal covered part of a scan line. *)
Inductive piece : Type :=
| PiecePoint (x : Q)
| PieceSpan (x0 x1 : Q).

(** The part that ends at [prev]: the span opened at [start], or the
    point [prev] itself when it is covered. *)
Definition close_piece (ring : list Coord) (y : Q) (start : option Q)
    (prev : Q) : list piece :=
  match start with
  | Some s => [PieceSpan s prev]
  | None => if covers ring (prev, y) then [PiecePoint prev] else []
  end.

(** Walk along the increasing abscissas [prev :: rest]; between two
    consecutive ones the line is covered throughout or not at all, which
    the middle decides. *)
Fixpoint walk (ring : list Coord) (y : Q) (start : option Q) (prev : Q)
    (rest : list Q) : list piece :=
  match rest with
  | [] => close_piece ring y start prev
  | c :: rest' =>
      if covers ring ((prev + c) / 2, y)
      then walk ring y (Some (match start with Some s => s | None => prev end))
             c rest'
      else close_piece ring y start prev ++ walk ring y None c rest'
  end.

Definition spans_of (y : Q) (ps : list piece) : list LineString :=
  flat_map (fun p => match p with
                     | PieceSpan a b =>
                         if Qltb a b then [mkLineString y a b] else []
                     | PiecePoint _ => []
                     end) ps.

Definition points_of (y : Q) (ps : list piece) : list Coord :=
  flat_map (fun p => match p with
                     | PiecePoint x => [(x, y)]
                     | PieceSpan _ _ => []
                     end) ps.

Definition flip (l : LineString) : LineString :=
  mkLineString (ls_y l) (ls_x1 l) (ls_x0 l).

(** The pieces of [line] in the region of [ring], in the direction of
    the line. *)
Definition clip (line : LineString) (ring : list Coord) : list piece :=
  let y := ls_y line in
  let lo := Qmin (ls_x0 line) (ls_x1 line) in
  let hi := Qmax (ls_x0 line) (ls_x1 line) in
  let xs := filter (between lo hi) (flat_map (crossings y) (edges ring)) in
  match sort_uniq (lo :: hi :: xs) with
  | [] => []
  | c :: cs => walk ring y None c cs
  end.

Definition intersection (line : LineString) (poly : Polygon) : Geometry :=
  let ps := clip line (exterior poly) in
  let forwards := Qle_bool (ls_x0 line) (ls_x1 line) in
  let pts := points_of (ls_y line) ps in
  let pts := if forwards then pts else rev pts in
  let lns := spans_of (ls_y line) ps in
  let lns := if forwards then lns else rev (map flip lns) in
  match pts, lns with
  | [], [] => GeomEmpty
  | [p], [] => GeomPoint p
  | _, [] => GeomMultiPoint pts
  | [], [l] => GeomLineString l
  | [], _ => GeomMultiLineString lns
  | _, _ => GeomCollection pts lns
  end.

(** The ring without repeated consecutive coordinates. *)
Fixpoint dedup (ring : list Coord) : list Coord :=
  match ring with
  | a :: (b :: _) as t => if coord_eqb a b then dedup t else a :: dedup t
  | _ => ring
  end.

(** Two closed segments meet. *)
Definition segments_meet (e f : Coord * Coord) : bool :=
  let (a, b) := e in
  let (c, d) := f in
  let d1 := cross c d a in
  let d2 := cross c d b in
  let d3 := cross a b c in
  let d4 := cross a b d in
  (Qltb (d1 * d2) 0 && Qltb (d3 * d4) 0)
  || on_segment a f || on_segment b f || on_segment c e || on_segment d e.

(** Two edges that follow each other, [e] ending where [f] starts, only
    share that end. *)
Definition hinge_ok (e f : Coord * Coord) : bool :=
  negb (on_segment (fst e) f) && negb (on_segment (snd f) e).

(** Edge number [i] against the later edges [(j, f)] of a ring of [n]
    edges. *)
Definition edge_ok (n : nat) (i : nat) (e : Coord * Coord)
    (later : list (nat * (Coord * Coord))) : bool :=
  forallb (fun jf : nat * (Coord * Coord) =>
             let (j, f) := jf in
             if Nat.eqb j (S i) then hinge_ok e f
             else if Nat.eqb i 0 && Nat.eqb (S j) n then hinge_ok f e
             else negb (segments_meet e f)) later.

Fixpoint edges_ok (n : nat) (es : list (nat * (Coord * Coord))) : bool :=
  match es with
  | [] => true
  | (i, e) :: later => edge_ok n i e later && edges_ok n later
  end.

Definition ring_simple (ring : list Coord) : bool :=
  let es := edges (dedup ring) in
  let n := List.length es in
  Nat.leb 3 n && edges_ok n (combine (seq 0 n) es).

Definition is_valid (poly : Polygon) : bool :=
  Nat.leb 3 (List.length (distinct (exterior poly)))
  && negb (Qeq_bool (area2 (exterior poly)) 0)
  && ring_simple (exterior poly).

End Exact.

#[export] Instance ExactKernel : GeometryKernel := {
  is_valid := Exact.is_valid;
  intersection := Exact.intersection
}.

(** A projector for polygons given in planar metres: every frame is the
    plane itself. *)
Definition PlanarProjector : Projector := {|
  from_crs := fun _ _ c => c
|}.

(** The square of the scenario, and some other polygons. *)
Definition square : list Coord := [(0, 0); (0, 100); (100, 100); (100, 0)].

(** A U: two towers on a base; rows above y = 30 have two parts. *)
Definition you : list Coord :=
  [(0, 0); (90, 0); (90, 60); (60, 60); (60, 30); (30, 30); (30, 60); (0, 60)].

(** A triangle standing on its apex: the lowest row is a single point. *)
Definition wedge : list Coord := [(50, 0); (100, 100); (0, 100)].

(** A bar with two teeth below it, of different depths: the row y = 10
    crosses the first tooth and touches the tip of the second. *)
Definition teeth : list Coord :=
  [(0, 20); (10, 20); (20, 0); (30, 20); (60, 20); (70, 10); (80, 20);
   (100, 20); (100, 40); (0, 40)].

Definition square_polygon : Polygon := mkPolygon (close_ring square).
Definition you_polygon : Polygon := mkPolygon (close_ring you).
Definition wedge_polygon : Polygon := mkPolygon (close_ring wedge).
Definition teeth_polygon : Polygon := mkPolygon (close_ring teeth).

Definition run (coords : list Coord) (spacing waypoint_interval altitude : Q)
    : outcome (list Waypoint) :=
  @generate_sweep_waypoints ExactKernel PlanarProjector 100 coords
    spacing waypoint_interval altitude.

(* ------------------------------------------------------------------ *)
(** ** Vocabulary of the properties *)

(** [coords] make the polygon [poly], and the planner accepts it. *)
Definition valid_input {K : GeometryKernel} (coords : list Coord)
    (poly : Polygon) : Prop :=
  Polygon_new coords = Ok poly /\ is_valid poly = true /\ is_empty poly = false.

(** Fewer than three distinct vertices, or no enclosed area. *)
Definition degenerate (coords : list Coord) : Prop :=
  (List.length (distinct coords) < 3)%nat \/ area2 (close_ring coords) == 0.

(** A kernel finds no degenerate polygon valid. *)
Definition rejects_degenerate (K : GeometryKernel) : Prop :=
  forall p, is_valid p = true ->
    (3 <= List.length (distinct (exterior p)))%nat /\ ~ area2 (exterior p) == 0.

(** Every line string that is part of a geometry. *)
Definition linear_parts (g : Geometry) : list LineString :=
  match g with
  | GeomLineString l => [l]
  | GeomMultiLineString ls => ls
  | GeomCollection _ ls => ls
  | _ => []
  end.

(** The line strings of an intersection have two distinct ends: a line
    that meets the polygon in one place only gives a point. *)
Definition proper_lines (K : GeometryKernel) : Prop :=
  forall line poly l,
    In l (linear_parts (intersection line poly)) -> ~ ls_x0 l == ls_x1 l.

(** The intersection has no line string in it. *)
Definition only_points (g : Geometry) : Prop :=
  match g with
  | GeomEmpty | GeomPoint _ | GeomMultiPoint _ => True
  | _ => False
  end.

(** The scan line at height [y]. *)
Definition scan_line (minx maxx y : Q) : LineString := mkLineString y minx maxx.

(** [n] values from [y] on, [spacing] apart, as the loop adds them up. *)
Fixpoint scan_ys (n : nat) (y spacing : Q) : list Q :=
  match n with
  | O => []
  | S n' => y :: scan_ys n' (y + spacing) spacing
  end.

(** [floor((maxy - miny) / spacing) + 1], and none when [maxy < miny]. *)
Definition scan_count (miny maxy spacing : Q) : nat :=
  if Qle_bool miny maxy
  then Z.to_nat (Qfloor ((maxy - miny) / spacing) + 1)
  else O.

(** [max(floor(L / waypoint_interval) + 1, 2)]. *)
Definition num_points_of (L waypoint_interval : Q) : Z :=
  Z.max (Qfloor (L / waypoint_interval) + 1) 2.

(** The planar point number [i] of [n] on a line. *)
Definition planar_point (line : LineString) (n : Z) (i : Z) : Coord :=
  interpolate line (inject_Z i / inject_Z (n - 1) * length line).

(** The waypoints of a line, from its start to its end. *)
Definition waypoints_on (project_to_latlon : Coord -> Coord)
    (waypoint_interval altitude : Q) (line : LineString) : list Waypoint :=
  let n := num_points_of (length line) waypoint_interval in
  map (fun i => (project_to_latlon (planar_point line n i), altitude))
      (range n).

(** The scan lines of a polygon, lowest first, and what the scan loop
    collects along them. *)
Definition scan_lines_of {P : Projector} (poly_lonlat : Polygon) (spacing : Q)
    : list LineString :=
  let '(minx, miny, maxx, maxy) := bounds (project_polygon poly_lonlat) in
  map (scan_line minx maxx)
      (scan_ys (scan_count miny maxy spacing) miny spacing).

Definition clipped {K : GeometryKernel} {P : Projector} (poly_lonlat : Polygon)
    (line : LineString) : list LineString :=
  appended (intersection line (project_polygon poly_lonlat)).

Definition collected_of {K : GeometryKernel} {P : Projector}
    (poly_lonlat : Polygon) (spacing : Q) : list LineString :=
  flat_map (clipped poly_lonlat) (scan_lines_of poly_lonlat spacing).

(** The segments in the order in which they are flown. *)
Definition sorted_lines_of {K : GeometryKernel} {P : Projector}
    (poly_lonlat : Polygon) (spacing : Q) : list LineString :=
  sorted centroid_y (collected_of poly_lonlat spacing).

(** The way back from the plane of a polygon. *)
Definition to_latlon {P : Projector} (poly_lonlat : Polygon) : Coord -> Coord :=
  from_crs (utm_crs_of poly_lonlat) (EPSG 4326).

Definition orient {A : Type} (reverse : bool) (pts : list A) : list A :=
  if reverse then rev pts else pts.

(** The directions of [n] segments, starting with [reverse]. *)
Fixpoint directions (reverse : bool) (n : nat) : list bool :=
  match n with
  | O => []
  | S n' => reverse :: directions (negb reverse) n'
  end.

(** The per-segment sequences, each in its direction, one after another. *)
Definition assemble {A : Type} (dirs : list bool) (parts : list (list A))
    : list A :=
  List.concat (map (fun dp => orient (fst dp) (snd dp)) (combine dirs parts)).

(** Waypoints up to the representation of their rationals. *)
Definition wp_eq (a b : Waypoint) : Prop :=
  fst (fst a) == fst (fst b) /\ snd (fst a) == snd (fst b) /\ snd a == snd b.

(** The waypoints of the scenario of the square: three rows of eleven. *)
Definition square_path : list Waypoint :=
  [(0, 0, 20); (10, 0, 20); (20, 0, 20); (30, 0, 20); (40, 0, 20);
   (50, 0, 20); (60, 0, 20); (70, 0, 20); (80, 0, 20); (90, 0, 20);
   (100, 0, 20);
   (100, 50, 20); (90, 50, 20); (80, 50, 20); (70, 50, 20); (60, 50, 20);
   (50, 50, 20); (40, 50, 20); (30, 50, 20); (20, 50, 20); (10, 50, 20);
   (0, 50, 20);
   (0, 100, 20); (10, 100, 20); (20, 100, 20); (30, 100, 20); (40, 100, 20);
   (50, 100, 20); (60, 100, 20); (70, 100, 20); (80, 100, 20); (90, 100, 20);
   (100, 100, 20)].

(** The order of a sort by [key]. *)
Definition key_le {A : Type} (key : A -> Q) (a b : A) : Prop := key a <= key b.

(** The same key in a sort. *)
Definition same_key {A : Type} (key : A -> Q) (k : Q) (a : A) : bool :=
  Qeq_bool (key a) k.

(* ------------------------------------------------------------------ *)
(** ** Text (Python [str])

    A text is a sequence of code points below 256. *)

(** [c.isspace()] for a code point below 256. *)
Definition is_space (c : ascii) : bool :=
  let n := nat_of_ascii c in
  (Nat.leb 9 n && Nat.leb n 13) || (Nat.leb 28 n && Nat.leb n 32)
  || Nat.eqb n 133 || Nat.eqb n 160.

Fixpoint string_forall (p : ascii -> bool) (s : string) : bool :=
  match s with
  | EmptyString => true
  | String c rest => p c && string_forall p rest
  end.

Definition is_empty_string (s : string) : bool :=
  match s with EmptyString => true | String _ _ => false end.

Definition snoc (s : string) (c : ascii) : string :=
  String.append s (String c EmptyString).

Fixpoint lstrip (s : string) : string :=
  match s with
  | EmptyString => EmptyString
  | String c rest => if is_space c then lstrip rest else s
  end.

Fixpoint rstrip (s : string) : string :=
  match s with
  | EmptyString => EmptyString
  | String c rest =>
      let rest' := rstrip rest in
      if is_empty_string rest' && is_space c then EmptyString
      else String c rest'
  end.

(** [s.strip()]. *)
Definition strip (s : string) : string := lstrip (rstrip s).

(** [s.split()] after the word [cur] has been read: the words of [s]
    between runs of white space. *)
Fixpoint split_words (cur : string) (s : string) : list string :=
  match s with
  | EmptyString => if is_empty_string cur then [] else [cur]
  | String c rest =>
      if is_space c
      then (if is_empty_string cur then split_words EmptyString rest
            else cur :: split_words EmptyString rest)
      else split_words (snoc cur c) rest
  end.

Definition str_split (s : string) : list string := split_words EmptyString s.

(** [s.split(sep)] for a separator of one character, after the field
    [cur] has been read. *)
Fixpoint split_fields (sep : ascii) (cur : string) (s : string)
    : list string :=
  match s with
  | EmptyString => [cur]
  | String c rest =>
      if Ascii.eqb c sep
      then cur :: split_fields sep EmptyString rest
      else split_fields sep (snoc cur c) rest
  end.

Definition str_split_on (sep : ascii) (s : string) : list string :=
  split_fields sep EmptyString s.

(** [float(s)] and [str(x)] of a float: [float_of_str] gives [None]
    where [float] raises [ValueError]. *)
Class FloatSyntax : Type := {
  float_of_str : string -> option Q;
  str_of_float : Q -> string
}.

(* ------------------------------------------------------------------ *)
(** ** KML documents ([xml.etree.ElementTree]) *)

(** An element: its tag, with the namespace in braces when it has one,
    its text and its children. *)
#[warnings="-register-all"]
Inductive Element : Type :=
| Elem (tag : string) (text : option string) (children : list Element).

Definition elem_tag (e : Element) : string :=
  match e with Elem tag _ _ => tag end.

Definition elem_text (e : Element) : option string :=
  match e with Elem _ text _ => text end.

Definition elem_children (e : Element) : list Element :=
  match e with Elem _ _ children => children end.

(** [e.find('.//tag')]: the first element with this tag, in document
    order, among the elements below [e]. *)
Fixpoint find_descendant (tag : string) (e : Element) : option Element :=
  match e with
  | Elem _ _ children =>
      (fix first_in (cs : list Element) : option Element :=
         match cs with
         | [] => None
         | c :: rest =>
             if String.eqb (elem_tag c) tag then Some c
             else match find_descendant tag c with
                  | Some found => Some found
                  | None => first_in rest
                  end
         end) children
  end.

Definition kml_ns : string := "http://www.opengis.net/kml/2.2".

(** The tag [kml:local] with the prefix resolved. *)
Definition kml_tag (local : string) : string :=
  String.append "{" (String.append kml_ns (String.append "}" local)).

(** The errors of the reader: those of the planner and one more. *)
Inductive io_exn : Type :=
| Builtin (e : exn)
| AttributeError (msg : string).

Inductive io (A : Type) : Type :=
| Returns (a : A)
| Throws (e : io_exn).

Arguments Returns {A} a.
Arguments Throws {A} e.

Definition comma : ascii := Ascii.ascii_of_nat 44.

Section Kml.

Context {F : FloatSyntax}.

(** [float(s)]. *)
Definition py_float (s : string) : io Q :=
  match float_of_str s with
  | Some x => Returns x
  | None => Throws (Builtin (ValueError "could not convert string to float"))
  end.

(** The loop [for coord_str in coords_text.split()] of lines 23-29. *)
Fixpoint coord_loop (tokens : list string) (coord_list : list Coord)
    : io (list Coord) :=
  match tokens with
  | [] => Returns coord_list
  | coord_str :: rest =>
      let parts := str_split_on comma coord_str in
      if Nat.ltb (List.length parts) 2 then coord_loop rest coord_list
      else
        match py_float (nth 0 parts EmptyString) with
        | Throws e => Throws e
        | Returns lon =>
            match py_float (nth 1 parts EmptyString) with
            | Throws e => Throws e
            | Returns lat => coord_loop rest (coord_list ++ [(lon, lat)])
            end
        end
  end.

(** [parse_kml_polygon], from the root of the parsed file on. *)
Definition parse_kml_polygon (root : Element) : io (list Coord) :=
  match find_descendant (kml_tag "Polygon") root with
  | None => Throws (Builtin (ValueError "No Polygon found in KML file."))
  | Some polygon_elem =>
      match find_descendant (kml_tag "coordinates") polygon_elem with
      | None =>
          Throws (Builtin (ValueError "No coordinates found in Polygon."))
      | Some coords_elem =>
          match elem_text coords_elem with
          | None =>
              Throws (AttributeError
                        "'NoneType' object has no attribute 'strip'")
          | Some text =>
              if is_empty_string (strip text) then
                Throws (Builtin
                          (ValueError "No coordinates found in Polygon."))
              else
                let coords_text := strip text in
                match coord_loop (str_split coords_text) [] with
                | Throws e => Throws e
                | Returns coord_list =>
                    if Nat.ltb (List.length coord_list) 3 then
                      Throws (Builtin
                                (ValueError
                                   "Polygon must have at least 3 coordinates."))
                    else Returns coord_list
                end
          end
      end
  end.

(** [f"{lon},{lat},{alt}"]. *)
Definition coord_token (w : Waypoint) : string :=
  let '(lon, lat, alt) := w in
  String.append (str_of_float lon)
    (String comma
       (String.append (str_of_float lat)
          (String comma (str_of_float alt)))).

(** [" ".join(...)] of line 108. *)
Definition coords_text_of (waypoints : list Waypoint) : string :=
  String.concat " " (map coord_token waypoints).

(** [write_kml_waypoints]: the tree that is handed to [tree.write]. *)
Definition write_kml_waypoints (waypoints : list Waypoint) : Element :=
  let name := Elem "name" (Some "Generated Flight Path"%string) [] in
  let tessellate := Elem "tessellate" (Some "1"%string) [] in
  let altitudeMode :=
    Elem "altitudeMode" (Some "relativeToGround"%string) [] in
  let coords_elem :=
    Elem "coordinates" (Some (coords_text_of waypoints)) [] in
  let ls := Elem "LineString" None [tessellate; altitudeMode; coords_elem] in
  let placemark := Elem "Placemark" None [name; ls] in
  let doc_elem := Elem "Document" None [placemark] in
  Elem (kml_tag "kml") None [doc_elem].

End Kml.

(** The tree as it is read back from the written file: the elements
    without a namespace are in the default namespace of the document, and
    an element written without text or children has no text. *)
Fixpoint reread (e : Element) : Element :=
  match e with
  | Elem tag text children =>
      Elem (if String.prefix "{" tag then tag else kml_tag tag)
           (match text with Some EmptyString => None | _ => text end)
           (map reread children)
  end.

(** A KML document with one polygon whose ring has the given text. *)
Definition polygon_document (text : string) : Element :=
  Elem (kml_tag "kml") None
    [Elem (kml_tag "Document") None
       [Elem (kml_tag "Placemark") None
          [Elem (kml_tag "Polygon") None
             [Elem (kml_tag "outerBoundaryIs") None
                [Elem (kml_tag "LinearRing") None
                   [Elem (kml_tag "coordinates") (Some text) []]]]]]].

(** The line strings of an intersection are at the height of the line. *)
Definition lines_at_scan_height (K : GeometryKernel) : Prop :=
  forall line poly l,
    In l (linear_parts (intersection line poly)) -> ls_y l == ls_y line.

(** What the scan loop adds at the height [y]. *)
Definition clipped_at {K : GeometryKernel} (poly_utm : Polygon)
    (minx maxx y : Q) : list LineString :=
  appended (intersection (scan_line minx maxx y) poly_utm).

(** The planar points of a line, from its start to its end. *)
Definition planar_points (waypoint_interval : Q) (line : LineString)
    : list Coord :=
  let n := num_points_of (length line) waypoint_interval in
  map (planar_point line n) (range n).

(** [p] is on the line [l]. *)
Definition on_line (l : LineString) (p : Coord) : Prop :=
  snd p = ls_y l
  /\ Qmin (ls_x0 l) (ls_x1 l) <= fst p <= Qmax (ls_x0 l) (ls_x1 l).

(** The characters that a float is written with: no white space and no
    comma. *)
Definition plain (s : string) : bool :=
  string_forall (fun c => negb (is_space c) && negb (Ascii.eqb c comma)) s.

(** [float(str(x))] is [x] again. *)
Definition readable (F : FloatSyntax) (x : Q) : Prop :=
  float_of_str (str_of_float x) = Some x.

(** The waypoints are written with plain characters, and their
    longitudes and latitudes can be read again. *)
Definition well_written (F : FloatSyntax) (waypoints : list Waypoint) : Prop :=
  forall lon lat alt, In (lon, lat, alt) waypoints ->
    readable F lon /\ readable F lat
    /\ plain (str_of_float lon) = true /\ plain (str_of_float lat) = true
    /\ plain (str_of_float alt) = true.

(* ------------------------------------------------------------------ *)
(** ** A float syntax: decimal numbers without exponent

    [-12.5], [100.0], [7]: enough to run the reader and the writer. *)

Module Decimal10.

Definition digit (d : Z) : ascii := ascii_of_nat (48 + Z.to_nat d).

(** The digits of [x], [0 <= x < 1], up to [fuel] of them. *)
Fixpoint frac_digits (fuel : nat) (x : Q) : string :=
  match fuel with
  | O => EmptyString
  | S fuel' =>
      let d := Qfloor (x * 10) in
      let r := x * 10 - inject_Z d in
      String (digit d)
        (if Qeq_bool r 0 then EmptyString else frac_digits fuel' r)
  end.

Definition str_of_float (x : Q) : string :=
  let a := Qabs x in
  let i := Qfloor a in
  String.append (if Qltb x 0 then "-" else "")
    (String.append (NilZero.string_of_uint (N.to_uint (Z.to_N i)))
       (String "." (frac_digits 17 (a - inject_Z i)))).

Definition unsigned_of_str (s : string) : option Q :=
  match str_split_on "." s with
  | [ip] =>
      if is_empty_string ip then None
      else match NilEmpty.uint_of_string ip with
           | Some i => Some (inject_Z (Z.of_N (N.of_uint i)))
           | None => None
           end
  | [ip; fp] =>
      if is_empty_string ip && is_empty_string fp then None
      else match NilEmpty.uint_of_string ip, NilEmpty.uint_of_string fp with
           | Some i, Some f =>
               Some (Qred (inject_Z (Z.of_N (N.of_uint i))
                           + inject_Z (Z.of_N (N.of_uint f))
                             / inject_Z (10 ^ Z.of_nat (String.length fp))))
           | _, _ => None
           end
  | _ => None
  end.

Definition float_of_str (s : string) : option Q :=
  match s with
  | String "-" rest =>
      match unsigned_of_str rest with
      | Some x => Some (Qred (- x))
      | None => None
      end
  | _ => unsigned_of_str s
  end.

End Decimal10.

Definition DecimalSyntax : FloatSyntax := {|
  float_of_str := Decimal10.float_of_str;
  str_of_float := Decimal10.str_of_float
|}.

(** The ring of [square], closed, as a KML document has it. *)
Definition square_text : string :=
  "
   0,0,0 0,100,0
   100,100,0 100,0,0 0,0,0
  ".

(* ------------------------------------------------------------------ *)
(** ** Rounding of floats (IEEE 754 binary64)

    [+], [-], [*] and [/] on Python floats give the double nearest to the
    exact result, ties to the even significand.  [Binary64.round] is that
    rounding on rationals, with the subnormal range; results beyond the
    largest double are not turned into infinities. *)

Module Binary64.

(** The exponent [e] with [2^e <= x < 2^(e+1)], for [x > 0]. *)
Definition binade (x : Q) : Z :=
  let e0 := (Z.log2 (Qnum x) - Z.log2 (Zpos (Qden x)))%Z in
  if Qle_bool (2 ^ e0) x then e0 else (e0 - 1)%Z.

(** The nearest integer, ties to even. *)
Definition rne (m : Q) : Z :=
  let f := Qfloor m in
  let r := m - inject_Z f in
  if Qltb r (1 # 2) then f
  else if Qltb (1 # 2) r then (f + 1)%Z
  else if Z.even f then f else (f + 1)%Z.

(** The exponent of the unit in the last place of the doubles around
    [x > 0]: 53 significant bits, exponents from -1022. *)
Definition ulp_exp (x : Q) : Z := (Z.max (binade x) (-1022) - 52)%Z.

Definition round_pos (x : Q) : Q :=
  let u := 2 ^ ulp_exp x in
  inject_Z (rne (x / u)) * u.

Definition round (x : Q) : Q :=
  let x := Qred x in
  Qred (if Qeq_bool x 0 then 0
        else if Qle_bool 0 x then round_pos x
        else - round_pos (- x)).

End Binary64.

(** A rounding is monotone. *)
Definition monotone (rnd : Q -> Q) : Prop :=
  forall x y, x <= y -> rnd x <= rnd y.

(** [x] is a float of the rounding. *)
Definition representable (rnd : Q -> Q) (x : Q) : Prop := rnd x == x.

(** The values of [y] in the scan loop: [y], then [y += spacing] with
    the sum rounded, [n] of them. *)
Fixpoint scan_ys_fl (rnd : Q -> Q) (n : nat) (y spacing : Q) : list Q :=
  match n with
  | O => []
  | S n' => y :: scan_ys_fl rnd n' (rnd (y + spacing)) spacing
  end.

(** The value of [y] after [n] rounds of the scan loop. *)
Fixpoint scan_y_fl (rnd : Q -> Q) (n : nat) (y spacing : Q) : Q :=
  match n with
  | O => y
  | S n' => scan_y_fl rnd n' (rnd (y + spacing)) spacing
  end.

Section RoundedPlanner.

Context {K : GeometryKernel} {P : Projector}.
Variable rnd : Q -> Q.

(** The loop [while y <= maxy] of lines 61-72 with the sum of
    [y += spacing] rounded by [rnd]. *)
Fixpoint scan_loop_fl (fuel : nat) (poly_utm : Polygon) (minx maxx maxy : Q)
    (spacing : Q) (y : Q) (scanned lines : list LineString)
    : outcome (list LineString * list LineString) :=
  match fuel with
  | O => OutOfFuel
  | S fuel' =>
      if Qle_bool y maxy then
        let line := mkLineString y minx maxx in
        let segment := intersection line poly_utm in
        scan_loop_fl fuel' poly_utm minx maxx maxy spacing
          (rnd (y + spacing)) (scanned ++ [line]) (lines ++ appended segment)
      else Ok (scanned, lines)
  end.

Definition scan_fl (fuel : nat) (poly_lonlat : Polygon) (spacing : Q)
    : outcome (list LineString * list LineString) :=
  let poly_utm := project_polygon poly_lonlat in
  let '(minx, miny, maxx, maxy) := bounds poly_utm in
  scan_loop_fl fuel poly_utm minx maxx maxy spacing miny [] [].

(** [get_utm_crs(lat, lon)] with the sum and the quotient rounded. *)
Definition get_utm_crs_fl (lat lon : Q) : CRS :=
  let zone_number := (py_int (rnd (rnd (lon + 180) / 6)) + 1)%Z in
  if Qle_bool 0 lat
  then EPSG (32600 + zone_number)
  else EPSG (32700 + zone_number).

End RoundedPlanner.

(** The double nearest to 0.1, and the unit square. *)
Definition tenth : Q := 3602879701896397 # 36028797018963968.

Definition unit_square : list Coord := [(0, 0); (0, 1); (1, 1); (1, 0)].
Definition unit_square_polygon : Polygon := mkPolygon (close_ring unit_square).

(** The double nearest to 1e-10, and a square of 100 m at a northing of
    4309600 m, where the doubles are about 1e-9 apart. *)
Definition tiny : Q := 7737125245533627 # 77371252455336267181195264.

Definition northing_square : list Coord :=
  [(500000, 4309600); (500000, 4309700); (500100, 4309700);
   (500100, 4309600)].
Definition northing_polygon : Polygon :=
  mkPolygon (close_ring northing_square).

(** The double 179.99999999999997, the largest below 180. *)
Definition below_180 : Q := 6333186975989759 # 35184372088832.

(* ------------------------------------------------------------------ *)
(** ** Arithmetic of the model *)

Lemma Qle_bool_false (a b : Q) : Qle_bool a b = false <-> b < a.
Proof.
  split; intro H.
  - apply Qnot_le_lt. intro Hle. apply Qle_bool_iff in Hle. congruence.
  - destruct (Qle_bool a b) eqn:E; [|reflexivity].
    apply Qle_bool_iff in E. exfalso. apply (Qlt_not_le _ _ H E).
Qed.

Lemma Qltb_true (a b : Q) : Qltb a b = true <-> a < b.
Proof.
  unfold Qltb. rewrite negb_true_iff. apply Qle_bool_false.
Qed.

Lemma Qeq_bool_false (a b : Q) : Qeq_bool a b = false <-> ~ a == b.
Proof.
  split; intro H.
  - intro E. apply Qeq_bool_iff in E. congruence.
  - destruct (Qeq_bool a b) eqn:E; [|reflexivity].
    apply Qeq_bool_iff in E. contradiction.
Qed.

Lemma py_int_inject_Z (z : Z) : py_int (inject_Z z) = z.
Proof.
  unfold py_int. destruct (Qle_bool 0 (inject_Z z)).
  - apply Qfloor_Z.
  - apply Qceiling_Z.
Qed.

Lemma inject_nat_succ (k : nat) :
  inject_Z (Z.of_nat (S k)) == inject_Z (Z.of_nat k) + 1.
Proof.
  rewrite Nat2Z.inj_succ. unfold Z.succ. rewrite inject_Z_plus. reflexivity.
Qed.

Lemma length_nonneg (l : LineString) : 0 <= length l.
Proof. apply Qabs_nonneg. Qed.

Lemma length_pos (l : LineString) : ~ ls_x0 l == ls_x1 l -> 0 < length l.
Proof.
  intro H. unfold length.
  destruct (Qlt_le_dec 0 (Qabs (ls_x1 l - ls_x0 l))) as [Hp|Hn]; [exact Hp|].
  exfalso. apply H.
  assert (E : Qabs (ls_x1 l - ls_x0 l) == 0).
  { apply Qle_antisym; [exact Hn | apply Qabs_nonneg]. }
  assert (Hu : ls_x1 l - ls_x0 l <= 0).
  { rewrite <- E. apply Qle_Qabs. }
  assert (Hd : - (ls_x1 l - ls_x0 l) <= 0).
  { rewrite <- E. rewrite <- Qabs_opp. apply Qle_Qabs. }
  lra.
Qed.

(** [floor(L / w) + 1 <= 1] for a negative interval. *)
Lemma num_points_negative_interval (L w : Q) :
  0 <= L -> w < 0 -> num_points_of L w = 2%Z.
Proof.
  intros HL Hw. unfold num_points_of.
  assert (Hq : L / w <= 0).
  { unfold Qdiv.
    assert (Hi : / w < 0).
    { setoid_replace (/ w) with (- / (- w)).
      - assert (0 < / - w) by (apply Qinv_lt_0_compat; lra). lra.
      - field. intro E. rewrite E in Hw. apply (Qlt_irrefl _ Hw). }
    setoid_replace (L * / w) with (- (L * - / w)) by ring.
    assert (0 <= L * - / w) by (apply Qmult_le_0_compat; lra).
    lra. }
  assert (Hf : (Qfloor (L / w) <= 0)%Z).
  { change 0%Z with (Qfloor 0). apply Qfloor_resp_le. exact Hq. }
  lia.
Qed.

Lemma num_points_ge_2 (L w : Q) : (2 <= num_points_of L w)%Z.
Proof. unfold num_points_of. lia. Qed.

Lemma range_length (n : Z) : List.length (range n) = Z.to_nat n.
Proof. unfold range. rewrite length_map, length_seq. reflexivity. Qed.

Lemma range_nth (n : Z) (i : nat) :
  (i < Z.to_nat n)%nat -> nth i (range n) 0%Z = Z.of_nat i.
Proof.
  intro H. unfold range.
  change 0%Z with (Z.of_nat 0). rewrite map_nth. rewrite seq_nth by exact H.
  reflexivity.
Qed.

Lemma range_bounds (n i : Z) : In i (range n) -> (0 <= i < n)%Z.
Proof.
  unfold range. rewrite in_map_iff. intros [k [<- Hk]].
  apply in_seq in Hk. lia.
Qed.

(* ------------------------------------------------------------------ *)
(** ** [sorted] is a stable sort *)

Section Sorting.

Context {A : Type} (key : A -> Q).

Lemma insert_by_perm (x : A) (l : list A) :
  Permutation (insert_by key x l) (x :: l).
Proof.
  induction l as [|h t IH]; simpl.
  - apply Permutation_refl.
  - destruct (Qltb (key h) (key x)).
    + apply perm_trans with (h :: x :: t).
      * apply perm_skip. exact IH.
      * apply perm_swap.
    + apply Permutation_refl.
Qed.

Lemma sorted_perm (l : list A) : Permutation (sorted key l) l.
Proof.
  induction l as [|a l IH]; simpl.
  - apply perm_nil.
  - apply perm_trans with (a :: sorted key l).
    + apply insert_by_perm.
    + apply perm_skip. exact IH.
Qed.

Lemma insert_by_hdrel (x a : A) (l : list A) :
  key_le key a x -> HdRel (key_le key) a l ->
  HdRel (key_le key) a (insert_by key x l).
Proof.
  intros Hax Hal. destruct l as [|h t]; simpl.
  - constructor. exact Hax.
  - destruct (Qltb (key h) (key x)); constructor.
    + inversion Hal; assumption.
    + exact Hax.
Qed.

Lemma insert_by_sorted (x : A) (l : list A) :
  Sorted (key_le key) l -> Sorted (key_le key) (insert_by key x l).
Proof.
  induction 1 as [|h t Ht IH Hh]; simpl.
  - repeat constructor.
  - destruct (Qltb (key h) (key x)) eqn:E.
    + constructor; [exact IH|].
      apply insert_by_hdrel; [|exact Hh].
      apply Qltb_true in E. apply Qlt_le_weak. exact E.
    + constructor.
      * constructor; assumption.
      * constructor. unfold Qltb in E. apply negb_false_iff in E.
        apply Qle_bool_iff in E. exact E.
Qed.

Lemma sorted_Sorted (l : list A) : Sorted (key_le key) (sorted key l).
Proof.
  induction l as [|a l IH]; simpl.
  - constructor.
  - apply insert_by_sorted. exact IH.
Qed.

(** Elements of one key keep their places among themselves. *)
Lemma insert_by_stable (k : Q) (x : A) (l : list A) :
  filter (same_key key k) (insert_by key x l)
  = filter (same_key key k) (x :: l).
Proof.
  induction l as [|h t IH]; [reflexivity|].
  simpl insert_by. destruct (Qltb (key h) (key x)) eqn:E; [|reflexivity].
  apply Qltb_true in E.
  simpl in *. rewrite IH.
  destruct (same_key key k x) eqn:Ex; [|reflexivity].
  destruct (same_key key k h) eqn:Eh; [|reflexivity].
  unfold same_key in Ex, Eh.
  apply Qeq_bool_iff in Ex. apply Qeq_bool_iff in Eh.
  exfalso. rewrite Ex, Eh in E. apply (Qlt_irrefl _ E).
Qed.

Lemma sorted_stable (k : Q) (l : list A) :
  filter (same_key key k) (sorted key l) = filter (same_key key k) l.
Proof.
  induction l as [|a l IH]; [reflexivity|].
  simpl sorted. rewrite insert_by_stable. simpl. rewrite IH. reflexivity.
Qed.

Lemma sorted_length (l : list A) : List.length (sorted key l) = List.length l.
Proof. apply Permutation_length. apply sorted_perm. Qed.

End Sorting.

(* ------------------------------------------------------------------ *)
(** ** The scan loop *)

Lemma scan_ys_length (n : nat) (y s : Q) : List.length (scan_ys n y s) = n.
Proof.
  revert y. induction n as [|n IH]; intro y; simpl; [reflexivity|].
  rewrite IH. reflexivity.
Qed.

Lemma scan_ys_nth (n : nat) (y s : Q) (k : nat) :
  (k < n)%nat -> nth k (scan_ys n y s) 0 == y + inject_Z (Z.of_nat k) * s.
Proof.
  revert y k. induction n as [|n IH]; intros y k Hk; [lia|].
  destruct k as [|k]; simpl scan_ys; simpl nth.
  - simpl. ring.
  - rewrite IH by lia. rewrite inject_nat_succ. ring.
Qed.

(** The bounds of a polygon are in order. *)
Lemma fold_Qmin_le (a : Q) (l : list Q) : fold_right Qmin a l <= a.
Proof.
  induction l as [|h t IH]; simpl.
  - apply Qle_refl.
  - eapply Qle_trans; [apply Q.le_min_r | exact IH].
Qed.

Lemma fold_Qmax_ge (a : Q) (l : list Q) : a <= fold_right Qmax a l.
Proof.
  induction l as [|h t IH]; simpl.
  - apply Qle_refl.
  - eapply Qle_trans; [exact IH | apply Q.le_max_r].
Qed.

Lemma bounds_ordered (p : Polygon) (minx miny maxx maxy : Q) :
  bounds p = (minx, miny, maxx, maxy) -> minx <= maxx /\ miny <= maxy.
Proof.
  unfold bounds. destruct (exterior p) as [|c cs]; intro H; inversion H; subst.
  - split; apply Qle_refl.
  - split; (eapply Qle_trans; [apply fold_Qmin_le | apply fold_Qmax_ge]).
Qed.

(** How many times the guard [y <= maxy] holds. *)
Lemma scan_count_spec (miny maxy s : Q) :
  0 < s ->
  (forall k, (k < scan_count miny maxy s)%nat ->
     miny + inject_Z (Z.of_nat k) * s <= maxy)
  /\ maxy < miny + inject_Z (Z.of_nat (scan_count miny maxy s)) * s.
Proof.
  intro Hs. unfold scan_count.
  destruct (Qle_bool miny maxy) eqn:E.
  - apply Qle_bool_iff in E.
    set (h := (maxy - miny) / s).
    assert (Hh : 0 <= h).
    { unfold h. apply Qle_shift_div_l; [exact Hs|]. lra. }
    assert (Hhs : h * s == maxy - miny).
    { unfold h. field. intro Z0. rewrite Z0 in Hs. apply (Qlt_irrefl _ Hs). }
    assert (Hf0 : (0 <= Qfloor h)%Z).
    { change 0%Z with (Qfloor 0). apply Qfloor_resp_le. exact Hh. }
    split.
    + intros k Hk.
      assert (Hkz : (Z.of_nat k <= Qfloor h)%Z) by lia.
      assert (Hkq : inject_Z (Z.of_nat k) <= h).
      { eapply Qle_trans; [|apply Qfloor_le].
        rewrite <- Zle_Qle. exact Hkz. }
      assert (inject_Z (Z.of_nat k) * s <= h * s).
      { apply Qmult_le_compat_r; [exact Hkq | apply Qlt_le_weak; exact Hs]. }
      lra.
    + rewrite Z2Nat.id by lia.
      assert (Hlt : h < inject_Z (Qfloor h + 1)) by apply Qlt_floor.
      assert (h * s < inject_Z (Qfloor h + 1) * s).
      { apply Qmult_lt_compat_r; assumption. }
      lra.
  - apply Qle_bool_false in E. split; [intros k Hk; lia|].
    change (inject_Z (Z.of_nat 0)) with 0. lra.
Qed.

Section ScanLoop.

Context {K : GeometryKernel}.
Variables (poly : Polygon) (minx maxx maxy s : Q).

Lemma scan_loop_run (n : nat) :
  forall (y : Q) (scanned lines : list LineString) (fuel : nat),
    (n < fuel)%nat ->
    (forall k, (k < n)%nat -> y + inject_Z (Z.of_nat k) * s <= maxy) ->
    maxy < y + inject_Z (Z.of_nat n) * s ->
    scan_loop fuel poly minx maxx maxy s y scanned lines
    = Ok (scanned ++ map (scan_line minx maxx) (scan_ys n y s),
          lines ++ flat_map (fun y => appended
                                        (intersection (scan_line minx maxx y)
                                           poly))
                            (scan_ys n y s)).
Proof.
  induction n as [|n IH]; intros y scanned lines fuel Hf Hin Hout;
    (destruct fuel as [|fuel]; [lia|]); simpl scan_loop.
  - assert (E : Qle_bool y maxy = false).
    { apply Qle_bool_false.
      change (inject_Z (Z.of_nat 0)) with 0 in Hout. lra. }
    rewrite E. simpl. rewrite !app_nil_r. reflexivity.
  - assert (E : Qle_bool y maxy = true).
    { apply Qle_bool_iff. specialize (Hin O ltac:(lia)).
      change (inject_Z (Z.of_nat 0)) with 0 in Hin. lra. }
    rewrite E. rewrite IH.
    + simpl. rewrite <- !app_assoc. reflexivity.
    + lia.
    + intros k Hk. specialize (Hin (S k) ltac:(lia)).
      rewrite inject_nat_succ in Hin. lra.
    + rewrite inject_nat_succ in Hout. lra.
Qed.

Lemma scan_loop_diverges (fuel : nat) :
  forall (y : Q) (scanned lines : list LineString),
    s <= 0 -> y <= maxy ->
    scan_loop fuel poly minx maxx maxy s y scanned lines = OutOfFuel.
Proof.
  induction fuel as [|fuel IH]; intros y scanned lines Hs Hy; simpl.
  - reflexivity.
  - assert (E : Qle_bool y maxy = true) by (apply Qle_bool_iff; exact Hy).
    rewrite E. apply IH; [exact Hs | lra].
Qed.

End ScanLoop.

Section Scan.

Context {K : GeometryKernel} {P : Projector}.

Lemma flat_map_scan (f : LineString -> list LineString) (minx maxx : Q)
    (ys : list Q) :
  flat_map (fun y => f (scan_line minx maxx y)) ys
  = flat_map f (map (scan_line minx maxx) ys).
Proof.
  induction ys as [|y ys IH]; simpl; [reflexivity|]. rewrite IH. reflexivity.
Qed.

Lemma scan_lines_of_length (poly : Polygon) (s : Q) :
  List.length (scan_lines_of poly s)
  = let '(_, miny, _, maxy) := bounds (project_polygon poly) in
    scan_count miny maxy s.
Proof.
  unfold scan_lines_of.
  destruct (bounds (project_polygon poly)) as [[[minx miny] maxx] maxy].
  rewrite length_map. apply scan_ys_length.
Qed.

(** With a positive spacing the scan returns after one test of the guard
    per scan line and one more. *)
Lemma scan_run (poly : Polygon) (s : Q) (fuel : nat) :
  0 < s ->
  (List.length (scan_lines_of poly s) < fuel)%nat ->
  scan fuel poly s = Ok (scan_lines_of poly s, collected_of poly s).
Proof.
  intros Hs Hf. rewrite scan_lines_of_length in Hf.
  unfold scan, collected_of, clipped, scan_lines_of.
  destruct (bounds (project_polygon poly)) as [[[minx miny] maxx] maxy].
  destruct (scan_count_spec miny maxy s Hs) as [Hin Hout].
  rewrite (scan_loop_run _ _ _ _ _ (scan_count miny maxy s)); try assumption.
  simpl. f_equal. f_equal.
  apply (flat_map_scan
           (fun line => appended (intersection line (project_polygon poly)))).
Qed.

(** With any other spacing it does not return. *)
Lemma scan_diverges (poly : Polygon) (s : Q) (fuel : nat) :
  s <= 0 -> scan fuel poly s = OutOfFuel.
Proof.
  intro Hs. unfold scan.
  destruct (bounds (project_polygon poly)) as [[[minx miny] maxx] maxy] eqn:B.
  apply scan_loop_diverges; [exact Hs|].
  apply (bounds_ordered _ _ _ _ _ B).
Qed.

End Scan.

(* ------------------------------------------------------------------ *)
(** ** The waypoint loops *)

Section Waypoints.

Variables (project_to_latlon : Coord -> Coord) (waypoint_interval altitude : Q).

Lemma interpolate_loop_run (line : LineString) (L : Q) (n : Z) :
  (2 <= n)%Z ->
  forall (indices : list Z) (acc : list Waypoint),
    interpolate_loop project_to_latlon line L n altitude indices acc
    = Ok (acc ++ map (fun i =>
                        (project_to_latlon
                           (interpolate line
                              (inject_Z i / inject_Z (n - 1) * L)),
                         altitude)) indices).
Proof.
  intros Hn indices.
  induction indices as [|i rest IH]; intro acc; simpl.
  - rewrite app_nil_r. reflexivity.
  - unfold py_truediv.
    replace (n - 1 =? 0)%Z with false by (symmetry; apply Z.eqb_neq; lia).
    cbv beta iota delta [bind].
    rewrite <- surjective_pairing.
    destruct (project_to_latlon _) as [lon lat] eqn:E.
    rewrite IH. rewrite <- app_assoc. reflexivity.
Qed.

Lemma segment_waypoints_run (line : LineString) :
  ~ waypoint_interval == 0 ->
  segment_waypoints project_to_latlon waypoint_interval altitude line
  = Ok (waypoints_on project_to_latlon waypoint_interval altitude line).
Proof.
  intro Hw. unfold segment_waypoints, py_floordiv.
  rewrite (proj2 (Qeq_bool_false _ _) Hw). cbv beta iota delta [bind].
  rewrite py_int_inject_Z.
  fold (num_points_of (length line) waypoint_interval).
  rewrite interpolate_loop_run by apply num_points_ge_2.
  reflexivity.
Qed.

Lemma segment_waypoints_zero (line : LineString) :
  waypoint_interval == 0 ->
  segment_waypoints project_to_latlon waypoint_interval altitude line
  = Raise (ZeroDivisionError "float floor division by zero").
Proof.
  intro Hw. unfold segment_waypoints, py_floordiv.
  rewrite (proj2 (Qeq_bool_iff _ _) Hw). reflexivity.
Qed.

Lemma waypoints_on_length (line : LineString) :
  List.length (waypoints_on project_to_latlon waypoint_interval altitude line)
  = Z.to_nat (num_points_of (length line) waypoint_interval).
Proof. unfold waypoints_on. rewrite length_map. apply range_length. Qed.

Lemma assemble_cons {A : Type} (d : bool) (dirs : list bool) (p : list A)
    (parts : list (list A)) :
  assemble (d :: dirs) (p :: parts) = orient d p ++ assemble dirs parts.
Proof. reflexivity. Qed.

Lemma waypoint_loop_run (lines : list LineString) :
  ~ waypoint_interval == 0 ->
  forall (acc : list Waypoint) (reverse : bool),
    waypoint_loop project_to_latlon waypoint_interval altitude lines acc reverse
    = Ok (acc ++ assemble (directions reverse (List.length lines))
                   (map (waypoints_on project_to_latlon waypoint_interval
                           altitude) lines)).
Proof.
  intro Hw. induction lines as [|line rest IH]; intros acc reverse; simpl.
  - unfold assemble. simpl. rewrite app_nil_r. reflexivity.
  - rewrite segment_waypoints_run by exact Hw. cbv beta iota delta [bind].
    rewrite IH. rewrite assemble_cons. rewrite <- app_assoc. reflexivity.
Qed.

Lemma waypoint_loop_zero (lines : list LineString) (acc : list Waypoint)
    (reverse : bool) :
  waypoint_interval == 0 ->
  waypoint_loop project_to_latlon waypoint_interval altitude lines acc reverse
  = match lines with
    | [] => Ok acc
    | _ :: _ => Raise (ZeroDivisionError "float floor division by zero")
    end.
Proof.
  intro Hw. destruct lines as [|line rest]; simpl; [reflexivity|].
  rewrite segment_waypoints_zero by exact Hw. reflexivity.
Qed.

End Waypoints.

Lemma directions_length (b : bool) (n : nat) :
  List.length (directions b n) = n.
Proof.
  revert b. induction n as [|n IH]; intro b; simpl; [reflexivity|].
  rewrite IH. reflexivity.
Qed.

Lemma directions_flip (n : nat) :
  forall (b : bool) (i : nat),
    (S i < n)%nat ->
    nth (S i) (directions b n) false = negb (nth i (directions b n) false).
Proof.
  induction n as [|n IH]; intros b i Hi; [lia|].
  destruct n as [|n]; [lia|].
  destruct i as [|i].
  - reflexivity.
  - change (nth (S (S i)) (directions b (S (S n))) false)
      with (nth (S i) (directions (negb b) (S n)) false).
    change (nth (S i) (directions b (S (S n))) false)
      with (nth i (directions (negb b) (S n)) false).
    apply IH. lia.
Qed.

Lemma directions_first (b : bool) (n : nat) : hd b (directions b n) = b.
Proof. destruct n; reflexivity. Qed.

Lemma assemble_length {A : Type} (parts : list (list A)) :
  forall dirs : list bool,
    List.length dirs = List.length parts ->
    List.length (assemble dirs parts)
    = list_sum (map (@List.length A) parts).
Proof.
  induction parts as [|p parts IH]; intros dirs Hd.
  - destruct dirs; reflexivity.
  - destruct dirs as [|d dirs]; [discriminate|].
    rewrite assemble_cons, length_app. simpl. rewrite IH by (simpl in Hd; lia).
    destruct d; simpl; [rewrite length_rev|]; reflexivity.
Qed.

(** Where the points of a line are: at the fraction [i / (n - 1)] of the
    way from its start to its end. *)
Lemma planar_point_spec (line : LineString) (n i : Z) :
  (2 <= n)%Z -> (0 <= i < n)%Z ->
  fst (planar_point line n i)
    == ls_x0 line + inject_Z i / inject_Z (n - 1) * (ls_x1 line - ls_x0 line)
  /\ snd (planar_point line n i) = ls_y line.
Proof.
  intros Hn Hi. unfold planar_point, interpolate.
  set (t := inject_Z i / inject_Z (n - 1)).
  set (len := length line).
  assert (Hlen : 0 <= len) by apply length_nonneg.
  assert (Hd : 0 < inject_Z (n - 1)).
  { change 0 with (inject_Z 0). rewrite <- Zlt_Qlt. lia. }
  assert (Ht0 : 0 <= t).
  { unfold t. apply Qle_shift_div_l; [exact Hd|].
    setoid_replace (0 * inject_Z (n - 1)) with (inject_Z 0) by ring.
    rewrite <- Zle_Qle. lia. }
  assert (Ht1 : t <= 1).
  { unfold t. apply Qle_shift_div_r; [exact Hd|].
    setoid_replace (1 * inject_Z (n - 1)) with (inject_Z (n - 1)) by ring.
    rewrite <- Zle_Qle. lia. }
  assert (Hp0 : 0 <= t * len) by (apply Qmult_le_0_compat; assumption).
  assert (Hp1 : t * len <= len).
  { setoid_replace len with (1 * len) at 2 by ring.
    apply Qmult_le_compat_r; assumption. }
  rewrite (proj2 (Qle_bool_iff _ _) Hp0).
  destruct (Qeq_bool len 0) eqn:E; simpl; (split; [|reflexivity]).
  - apply Qeq_bool_iff in E.
    assert (Hx : ls_x1 line - ls_x0 line == 0).
    { assert (Hu : ls_x1 line - ls_x0 line <= 0).
      { rewrite <- E. apply Qle_Qabs. }
      assert (Hl : - (ls_x1 line - ls_x0 line) <= 0).
      { rewrite <- E. unfold len, length. rewrite <- Qabs_opp. apply Qle_Qabs. }
      lra. }
    rewrite Hx. ring.
  - apply Qeq_bool_false in E.
    rewrite (Q.min_l _ _ Hp1). field. exact E.
Qed.

(** The first lines of the planner on a polygon that it accepts. *)
Ltac enter_planner Hp Hv He :=
  unfold generate_sweep_waypoints;
  rewrite Hp; cbv beta iota delta [bind];
  rewrite Hv, He; simpl orb; cbv iota.

Section Run.

Context {K : GeometryKernel} {P : Projector}.

(** The planner on a valid polygon, a positive spacing and a non-zero
    interval: once the fuel covers the scan lines it returns the
    per-segment waypoints of the sorted segments, each in its direction. *)
Lemma generate_run (coords : list Coord) (poly : Polygon)
    (s w alt : Q) (fuel : nat) :
  valid_input coords poly -> 0 < s -> ~ w == 0 ->
  (List.length (scan_lines_of poly s) < fuel)%nat ->
  generate_sweep_waypoints fuel coords s w alt
  = Ok (assemble (directions false (List.length (sorted_lines_of poly s)))
          (map (waypoints_on (to_latlon poly) w alt) (sorted_lines_of poly s))).
Proof.
  intros [Hp [Hv He]] Hs Hw Hf. enter_planner Hp Hv He.
  rewrite scan_run by assumption.
  cbv beta iota. simpl snd.
  rewrite waypoint_loop_run by exact Hw. reflexivity.
Qed.

(** With a zero interval the first segment, when there is one, stops it. *)
Lemma generate_zero_interval (coords : list Coord) (poly : Polygon)
    (s w alt : Q) (fuel : nat) :
  valid_input coords poly -> 0 < s -> w == 0 ->
  (List.length (scan_lines_of poly s) < fuel)%nat ->
  generate_sweep_waypoints fuel coords s w alt
  = match sorted_lines_of poly s with
    | [] => Ok []
    | _ :: _ => Raise (ZeroDivisionError "float floor division by zero")
    end.
Proof.
  intros [Hp [Hv He]] Hs Hw Hf. enter_planner Hp Hv He.
  rewrite scan_run by assumption.
  cbv beta iota. simpl snd.
  rewrite waypoint_loop_zero by exact Hw. reflexivity.
Qed.

(** With a spacing that is not positive the scan loop keeps it busy. *)
Lemma generate_diverges (coords : list Coord) (poly : Polygon)
    (s w alt : Q) (fuel : nat) :
  valid_input coords poly -> s <= 0 ->
  generate_sweep_waypoints fuel coords s w alt = OutOfFuel.
Proof.
  intros [Hp [Hv He]] Hs. enter_planner Hp Hv He.
  rewrite scan_diverges by assumption. reflexivity.
Qed.

End Run.

(* ------------------------------------------------------------------ *)
(** ** Distinct vertices *)

Lemma coord_eqb_iff (a b : Coord) :
  coord_eqb a b = true <-> fst a == fst b /\ snd a == snd b.
Proof.
  unfold coord_eqb. rewrite andb_true_iff, !Qeq_bool_iff. reflexivity.
Qed.

Lemma coord_eqb_refl (a : Coord) : coord_eqb a a = true.
Proof. apply coord_eqb_iff. split; reflexivity. Qed.

Lemma coord_eqb_sym (a b : Coord) : coord_eqb a b = coord_eqb b a.
Proof.
  destruct (coord_eqb a b) eqn:E1, (coord_eqb b a) eqn:E2; try reflexivity.
  - apply coord_eqb_iff in E1. destruct E1 as [E1 E1'].
    assert (H : coord_eqb b a = true)
      by (apply coord_eqb_iff; split; symmetry; assumption).
    congruence.
  - apply coord_eqb_iff in E2. destruct E2 as [E2 E2'].
    assert (H : coord_eqb a b = true)
      by (apply coord_eqb_iff; split; symmetry; assumption).
    congruence.
Qed.

Lemma coord_eqb_trans (a b c : Coord) :
  coord_eqb a b = true -> coord_eqb b c = true -> coord_eqb a c = true.
Proof.
  rewrite !coord_eqb_iff. intros [H1 H2] [H3 H4].
  split; etransitivity; eassumption.
Qed.

Lemma coord_eqb_compat (a x y : Coord) :
  coord_eqb a x = true -> coord_eqb a y = coord_eqb x y.
Proof.
  intro H.
  destruct (coord_eqb a y) eqn:E1, (coord_eqb x y) eqn:E2; try reflexivity.
  - rewrite coord_eqb_sym in H.
    rewrite (coord_eqb_trans _ _ _ H E1) in E2. discriminate.
  - rewrite (coord_eqb_trans _ _ _ H E2) in E1. discriminate.
Qed.

Lemma existsb_coord_compat (a x : Coord) (t : list Coord) :
  coord_eqb a x = true ->
  existsb (coord_eqb a) t = existsb (coord_eqb x) t.
Proof.
  intro H. induction t as [|y t IH]; simpl; [reflexivity|].
  rewrite IH, (coord_eqb_compat a x y H). reflexivity.
Qed.

Lemma existsb_snoc (x a : Coord) (t : list Coord) :
  existsb (coord_eqb x) (t ++ [a]) = existsb (coord_eqb x) t || coord_eqb x a.
Proof. rewrite existsb_app. simpl. rewrite orb_false_r. reflexivity. Qed.

Lemma distinct_snoc_new (a : Coord) (t : list Coord) :
  existsb (coord_eqb a) t = false ->
  List.length (distinct (t ++ [a])) = S (List.length (distinct t)).
Proof.
  induction t as [|y t IH]; intro H; [reflexivity|].
  simpl in H. apply orb_false_iff in H. destruct H as [Hy Ht].
  simpl. rewrite existsb_snoc, (coord_eqb_sym y a), Hy, orb_false_r.
  destruct (existsb (coord_eqb y) t); simpl; rewrite IH by exact Ht;
    reflexivity.
Qed.

Lemma distinct_snoc_old (a : Coord) (l : list Coord) :
  existsb (coord_eqb a) l = true ->
  List.length (distinct (l ++ [a])) = List.length (distinct l).
Proof.
  induction l as [|x t IH]; intro H; [discriminate|].
  simpl. rewrite existsb_snoc.
  destruct (existsb (coord_eqb a) t) eqn:Et.
  - assert (E : existsb (coord_eqb x) t || coord_eqb x a
                = existsb (coord_eqb x) t).
    { destruct (coord_eqb x a) eqn:Exa; [|apply orb_false_r].
      rewrite coord_eqb_sym in Exa.
      rewrite <- (existsb_coord_compat a x t Exa), Et. reflexivity. }
    rewrite E. destruct (existsb (coord_eqb x) t); simpl; rewrite IH;
      reflexivity.
  - simpl in H. rewrite Et, orb_false_r in H.
    rewrite (coord_eqb_sym x a), H, orb_true_r.
    rewrite <- (existsb_coord_compat a x t H), Et.
    simpl. apply distinct_snoc_new. exact Et.
Qed.

Lemma distinct_close_ring (coords : list Coord) :
  List.length (distinct (close_ring coords)) = List.length (distinct coords).
Proof.
  unfold close_ring. destruct coords as [|first rest]; [reflexivity|].
  destruct (coord_eqb first (last (first :: rest) first)); [reflexivity|].
  apply distinct_snoc_old. simpl. rewrite coord_eqb_refl. reflexivity.
Qed.

(* ------------------------------------------------------------------ *)
(** ** The exact kernel keeps the laws of a geometry kernel *)

Lemma exact_rejects_degenerate : rejects_degenerate ExactKernel.
Proof.
  intros p H. simpl in H. unfold Exact.is_valid in H.
  apply andb_true_iff in H. destruct H as [H _].
  apply andb_true_iff in H. destruct H as [Hn Ha].
  split.
  - apply Nat.leb_le. exact Hn.
  - apply negb_true_iff in Ha. apply Qeq_bool_false. exact Ha.
Qed.

Lemma spans_of_proper (y : Q) (ps : list Exact.piece) (l : LineString) :
  In l (Exact.spans_of y ps) -> ls_x0 l < ls_x1 l.
Proof.
  unfold Exact.spans_of. rewrite in_flat_map. intros [p [_ Hl]].
  destruct p as [x|a b]; [contradiction|].
  destruct (Qltb a b) eqn:E; [|contradiction].
  destruct Hl as [<-|[]]. simpl. apply Qltb_true. exact E.
Qed.

Lemma exact_proper_lines : proper_lines ExactKernel.
Proof.
  intros line poly l. simpl. unfold Exact.intersection.
  set (ps := Exact.clip line (exterior poly)).
  set (lns := if Qle_bool (ls_x0 line) (ls_x1 line)
              then Exact.spans_of (ls_y line) ps
              else rev (map Exact.flip (Exact.spans_of (ls_y line) ps))).
  assert (Hl : forall l, In l lns -> ~ ls_x0 l == ls_x1 l).
  { intros l0 H0. unfold lns in H0.
    destruct (Qle_bool (ls_x0 line) (ls_x1 line)).
    - apply spans_of_proper in H0. lra.
    - apply in_rev in H0. apply in_map_iff in H0.
      destruct H0 as [l1 [<- H1]]. apply spans_of_proper in H1.
      simpl. lra. }
  intro H. apply Hl.
  destruct (if Qle_bool (ls_x0 line) (ls_x1 line)
            then Exact.points_of (ls_y line) ps
            else rev (Exact.points_of (ls_y line) ps)) as [|p [|p' pts]];
    destruct lns as [|l0 [|l1 lns']]; simpl in H; try contradiction;
    try exact H.
Qed.

(* ------------------------------------------------------------------ *)
(** ** Properties of the planner *)

Lemma teeth_valid : @valid_input ExactKernel teeth teeth_polygon.
Proof. split; [|split]; vm_compute; reflexivity. Qed.

(** A result of mixed dimension, points and line strings, is neither a
    [LineString] nor a [MultiLineString]: the scan loop adds none of its
    line strings.  The row y = 10 of [teeth] is such a result. *)
Lemma mixed_intersection_adds_nothing (ps : list Coord)
    (ls : list LineString) :
  appended (GeomCollection ps ls) = [].
Proof. unfold appended. destruct (negb _); reflexivity. Qed.

Lemma teeth_row_10_is_mixed :
  exists p l,
    @intersection ExactKernel (scan_line 0 100 10) teeth_polygon
    = GeomCollection [p] [l]
    /\ length l == 10.
Proof. eexists. eexists. split; vm_compute; reflexivity. Qed.

(** C1 (alternation).  On a polygon that the planner accepts, with a
    positive spacing and a non-zero interval, the returned list is made
    of the waypoint sequences of the segments in sorted order, each
    taken in a direction; the first segment is taken forwards (not
    reversed), and any two segments adjacent in the sorted order are
    taken in opposite directions. *)
Theorem direction_alternates {K : GeometryKernel} {P : Projector}
    (coords : list Coord) (poly : Polygon) (s w alt : Q) :
  valid_input coords poly -> 0 < s -> ~ w == 0 ->
  exists (parts : list (list Waypoint)) (dirs : list bool),
    Forall2 (fun line part =>
               segment_waypoints (to_latlon poly) w alt line = Ok part)
            (sorted_lines_of poly s) parts
    /\ (forall fuel, (List.length (scan_lines_of poly s) < fuel)%nat ->
          generate_sweep_waypoints fuel coords s w alt
          = Ok (List.concat
                  (map (fun dp : bool * list Waypoint =>
                          if fst dp then rev (snd dp) else snd dp)
                       (combine dirs parts))))
    /\ List.length dirs = List.length parts
    /\ hd false dirs = false
    /\ (forall i, (S i < List.length dirs)%nat ->
          nth (S i) dirs false = negb (nth i dirs false)).
Proof.
  intros Hv Hs Hw.
  exists (map (waypoints_on (to_latlon poly) w alt) (sorted_lines_of poly s)).
  exists (directions false (List.length (sorted_lines_of poly s))).
  split; [|split; [|split; [|split]]].
  - induction (sorted_lines_of poly s) as [|l ls IH]; constructor.
    + apply segment_waypoints_run. exact Hw.
    + exact IH.
  - intros fuel Hf. apply (generate_run coords poly); assumption.
  - rewrite directions_length, length_map. reflexivity.
  - apply directions_first.
  - intros i Hi. rewrite directions_length in Hi.
    apply directions_flip. exact Hi.
Qed.

Lemma direction_alternates_witness :
  exists (parts : list (list Waypoint)) (dirs : list bool),
    Forall2 (fun line part =>
               segment_waypoints (@to_latlon PlanarProjector you_polygon)
                 30 20 line = Ok part)
            (@sorted_lines_of ExactKernel PlanarProjector you_polygon 45)
            parts
    /\ (forall fuel,
          (List.length (@scan_lines_of PlanarProjector you_polygon 45)
           < fuel)%nat ->
          @generate_sweep_waypoints ExactKernel PlanarProjector fuel you
            45 30 20
          = Ok (List.concat
                  (map (fun dp : bool * list Waypoint =>
                          if fst dp then rev (snd dp) else snd dp)
                       (combine dirs parts))))
    /\ List.length dirs = List.length parts
    /\ hd false dirs = false
    /\ (forall i, (S i < List.length dirs)%nat ->
          nth (S i) dirs false = negb (nth i dirs false)).
Proof.
  apply (@direction_alternates ExactKernel PlanarProjector
           you you_polygon 45 30 20).
  - split; [|split]; vm_compute; reflexivity.
  - reflexivity.
  - unfold Qeq. simpl. lia.
Defined.



(** C3 (interpolation of a segment).  For a line of length [L] and an
    interval [w > 0] the inner loop returns
    [n = max(floor(L / w) + 1, 2)] waypoints, at least two; waypoint
    number [i] is the image of the planar point at the fraction
    [i / (n - 1)] of the way from the start of the line to its end, with
    the altitude; the first is the start of the line and the last is
    its end. *)
Theorem segment_interpolation (project_to_latlon : Coord -> Coord)
    (w alt : Q) (line : LineString) :
  0 < w ->
  let n := Z.max (Qfloor (length line / w) + 1) 2 in
  exists (pts : list Waypoint) (planar : list Coord),
    segment_waypoints project_to_latlon w alt line = Ok pts
    /\ pts = map (fun p => (project_to_latlon p, alt)) planar
    /\ List.length pts = Z.to_nat n
    /\ (2 <= List.length pts)%nat
    /\ (forall i, (i < List.length planar)%nat ->
          fst (nth i planar (0, 0))
          == ls_x0 line
             + inject_Z (Z.of_nat i) / inject_Z (n - 1)
               * (ls_x1 line - ls_x0 line)
          /\ snd (nth i planar (0, 0)) = ls_y line)
    /\ fst (hd (0, 0) planar) == ls_x0 line
    /\ fst (last planar (0, 0)) == ls_x1 line.
Proof.
  intros Hw n.
  assert (Hw0 : ~ w == 0) by lra.
  assert (Hn : (2 <= n)%Z) by (unfold n; lia).
  set (planar := map (planar_point line n) (range n)).
  assert (Hlen : List.length planar = Z.to_nat n).
  { unfold planar. rewrite length_map. apply range_length. }
  assert (Hnth : forall i, (i < List.length planar)%nat ->
            nth i planar (0, 0) = planar_point line n (Z.of_nat i)).
  { intros i Hi. rewrite Hlen in Hi. unfold planar.
    rewrite (nth_indep _ (0, 0) (planar_point line n 0%Z))
      by (rewrite length_map, range_length; exact Hi).
    rewrite map_nth. rewrite range_nth by exact Hi. reflexivity. }
  assert (Hpt : forall i, (i < List.length planar)%nat ->
            fst (nth i planar (0, 0))
            == ls_x0 line
               + inject_Z (Z.of_nat i) / inject_Z (n - 1)
                 * (ls_x1 line - ls_x0 line)
            /\ snd (nth i planar (0, 0)) = ls_y line).
  { intros i Hi. rewrite (Hnth i Hi). rewrite Hlen in Hi.
    apply planar_point_spec; lia. }
  exists (map (fun p => (project_to_latlon p, alt)) planar), planar.
  split; [|split; [|split; [|split; [|split; [|split]]]]].
  - rewrite segment_waypoints_run by exact Hw0.
    unfold waypoints_on, planar. rewrite map_map. reflexivity.
  - reflexivity.
  - rewrite length_map. exact Hlen.
  - rewrite length_map, Hlen. lia.
  - exact Hpt.
  - destruct planar as [|p0 rest] eqn:E; [simpl in Hlen; lia|].
    destruct (Hpt 0%nat ltac:(simpl; lia)) as [H0 _]. simpl in H0 |- *.
    rewrite H0. change (inject_Z 0) with 0. field.
    change 0 with (inject_Z 0). rewrite inject_Z_injective. lia.
  - assert (Hl : last planar (0, 0)
                 = nth (List.length planar - 1) planar (0, 0)).
    { clear. induction planar as [|a [|b t] IH]; try reflexivity.
      change (last (a :: b :: t) (0, 0)) with (last (b :: t) (0, 0)).
      rewrite IH. simpl. rewrite Nat.sub_0_r. reflexivity. }
    rewrite Hl.
    destruct (Hpt (List.length planar - 1)%nat ltac:(lia)) as [H1 _].
    rewrite H1, Hlen.
    replace (Z.of_nat (Z.to_nat n - 1)) with (n - 1)%Z by lia.
    field. change 0 with (inject_Z 0). rewrite inject_Z_injective. lia.
Qed.

Lemma segment_interpolation_witness :
  let line := mkLineString 50 0 100 in
  let n := Z.max (Qfloor (length line / 10) + 1) 2 in
  exists (pts : list Waypoint) (planar : list Coord),
    segment_waypoints (fun c => c) 10 20 line = Ok pts
    /\ pts = map (fun p => (p, 20)) planar
    /\ List.length pts = Z.to_nat n
    /\ (2 <= List.length pts)%nat
    /\ (forall i, (i < List.length planar)%nat ->
          fst (nth i planar (0, 0))
          == ls_x0 line
             + inject_Z (Z.of_nat i) / inject_Z (n - 1)
               * (ls_x1 line - ls_x0 line)
          /\ snd (nth i planar (0, 0)) = ls_y line)
    /\ fst (hd (0, 0) planar) == ls_x0 line
    /\ fst (last planar (0, 0)) == ls_x1 line.
Proof.
  apply (segment_interpolation (fun c => c) 10 20 (mkLineString 50 0 100)).
  reflexivity.
Defined.

(** C6 (the square).  The square with planar corners (0,0), (0,100),
    (100,100), (100,0), spacing 50, interval 10 and altitude 20: the
    planner accepts it; the scan builds three scan lines, at y = 0, 50
    and 100; each meets the square in one line string, of length 100,
    running from low x to high x; each line string gives 11 waypoints;
    the planner returns 33 waypoints, the row y = 0 from x = 0 to 100,
    then the row y = 50 from x = 100 to 0, then the row y = 100 from
    x = 0 to 100, all at altitude 20. *)
Theorem square_scenario (fuel : nat) :
  (3 < fuel)%nat ->
  @valid_input ExactKernel square square_polygon
  /\ exists (scanned lines : list LineString) (wps : list Waypoint),
       @scan ExactKernel PlanarProjector fuel square_polygon 50
       = Ok (scanned, lines)
       /\ map ls_y scanned = [0; 50; 100]
       /\ Forall2 (fun sl line =>
                     @intersection ExactKernel sl square_polygon
                     = GeomLineString line
                     /\ length line == 100
                     /\ ls_x0 line < ls_x1 line)
                  scanned lines
       /\ Forall (fun line =>
                    exists pts,
                      segment_waypoints (fun c => c) 10 20 line = Ok pts
                      /\ List.length pts = 11%nat)
                 lines
       /\ @generate_sweep_waypoints ExactKernel PlanarProjector fuel square
            50 10 20 = Ok wps
       /\ List.length wps = 33%nat
       /\ Forall2 wp_eq wps square_path.
Proof.
  intro Hf. split; [repeat split|].
  assert (Hn : List.length (@scan_lines_of PlanarProjector square_polygon 50)
               = 3%nat) by (vm_compute; reflexivity).
  exists (@scan_lines_of PlanarProjector square_polygon 50).
  exists (@collected_of ExactKernel PlanarProjector square_polygon 50).
  eexists.
  split; [|split; [|split; [|split; [|split; [|split]]]]].
  - apply scan_run; [reflexivity | rewrite Hn; exact Hf].
  - vm_compute. reflexivity.
  - remember (@scan_lines_of PlanarProjector square_polygon 50) as sc eqn:Es.
    remember (@collected_of ExactKernel PlanarProjector square_polygon 50)
      as ls eqn:El.
    vm_compute in Es, El. subst sc ls.
    repeat (constructor; [repeat split; vm_compute; reflexivity|]).
    constructor.
  - remember (@collected_of ExactKernel PlanarProjector square_polygon 50)
      as ls eqn:El.
    vm_compute in El. subst ls.
    repeat (constructor; [eexists; split; vm_compute; reflexivity|]).
    constructor.
  - apply (generate_run square square_polygon);
      [repeat split | reflexivity | unfold Qeq; simpl; lia
      | rewrite Hn; exact Hf].
  - vm_compute. reflexivity.
  - unfold square_path.
    match goal with
    | |- Forall2 _ ?l _ => let v := eval vm_compute in l in change l with v
    end.
    repeat (constructor; [repeat split; vm_compute; reflexivity|]).
    constructor.
Qed.

Lemma square_scenario_witness :
  @valid_input ExactKernel square square_polygon
  /\ exists (scanned lines : list LineString) (wps : list Waypoint),
       @scan ExactKernel PlanarProjector 4 square_polygon 50
       = Ok (scanned, lines)
       /\ map ls_y scanned = [0; 50; 100]
       /\ Forall2 (fun sl line =>
                     @intersection ExactKernel sl square_polygon
                     = GeomLineString line
                     /\ length line == 100
                     /\ ls_x0 line < ls_x1 line)
                  scanned lines
       /\ Forall (fun line =>
                    exists pts,
                      segment_waypoints (fun c => c) 10 20 line = Ok pts
                      /\ List.length pts = 11%nat)
                 lines
       /\ @generate_sweep_waypoints ExactKernel PlanarProjector 4 square
            50 10 20 = Ok wps
       /\ List.length wps = 33%nat
       /\ Forall2 wp_eq wps square_path.
Proof.
  apply (square_scenario 4). lia.
Defined.

(** C7 (rejection of invalid polygons).  With a geometry kernel that
    finds no degenerate polygon valid, a polygon with fewer than three
    distinct vertices or without enclosed area makes the planner raise a
    [ValueError]; the error is the same whatever the projection and
    whatever the fuel, and nothing is returned. *)
Theorem degenerate_polygon_rejected {K : GeometryKernel}
    (coords : list Coord) (s w alt : Q) :
  rejects_degenerate K ->
  degenerate coords ->
  exists msg,
    forall (P : Projector) (fuel : nat),
      generate_sweep_waypoints fuel coords s w alt = Raise (ValueError msg).
Proof.
  intros HK Hd. unfold generate_sweep_waypoints.
  destruct coords as [|a [|b [|c rest]]].
  - eexists. intros P fuel. simpl. rewrite orb_true_r. reflexivity.
  - eexists. intros P fuel. reflexivity.
  - eexists. intros P fuel. reflexivity.
  - set (coords := a :: b :: c :: rest) in *.
    change (Polygon_new coords) with (Ok (mkPolygon (close_ring coords))).
    cbv beta iota delta [bind].
    destruct (is_valid (mkPolygon (close_ring coords))) eqn:Ev.
    + exfalso. destruct (HK _ Ev) as [Hn Ha]. cbn [exterior] in Hn, Ha.
      rewrite distinct_close_ring in Hn.
      destruct Hd as [Hd|Hd]; [lia | contradiction].
    + eexists. intros P fuel. reflexivity.
Qed.

Lemma degenerate_polygon_rejected_witness :
  exists msg,
    forall (P : Projector) (fuel : nat),
      @generate_sweep_waypoints ExactKernel P fuel [(0, 0); (1, 1); (2, 2)]
        50 10 20 = Raise (ValueError msg).
Proof.
  apply (@degenerate_polygon_rejected ExactKernel [(0, 0); (1, 1); (2, 2)]
           50 10 20 exact_rejects_degenerate).
  right. vm_compute. reflexivity.
Defined.

(** C8 (segments have a length).  With a geometry kernel whose line
    strings have two distinct ends, and a positive spacing: every segment
    that the scan collects has a strictly positive length; an
    intersection that is empty or made of points only adds no segment;
    and the returned list has exactly the waypoints of the collected
    segments, so that such a scan line contributes no waypoint. *)
Theorem retained_segments_have_length {K : GeometryKernel} {P : Projector}
    (coords : list Coord) (poly : Polygon) (s w alt : Q) :
  proper_lines K ->
  valid_input coords poly -> 0 < s -> ~ w == 0 ->
  forall fuel, (List.length (scan_lines_of poly s) < fuel)%nat ->
    exists (scanned lines : list LineString) (wps : list Waypoint),
      scan fuel poly s = Ok (scanned, lines)
      /\ lines
         = flat_map (fun line =>
                       appended (intersection line (project_polygon poly)))
                    scanned
      /\ (forall l, In l lines -> 0 < length l)
      /\ (forall line,
            only_points (intersection line (project_polygon poly)) ->
            appended (intersection line (project_polygon poly)) = [])
      /\ generate_sweep_waypoints fuel coords s w alt = Ok wps
      /\ List.length wps
         = list_sum (map (fun l => Z.to_nat (num_points_of (length l) w))
                         (sorted centroid_y lines)).
Proof.
  intros HK Hv Hs Hw fuel Hf.
  exists (scan_lines_of poly s), (collected_of poly s). eexists.
  split; [|split; [|split; [|split; [|split]]]].
  - apply scan_run; assumption.
  - reflexivity.
  - intros l Hl. apply length_pos.
    unfold collected_of, clipped in Hl. apply in_flat_map in Hl.
    destruct Hl as [line [_ Hl]].
    apply (HK line (project_polygon poly)).
    unfold appended in Hl.
    destruct (intersection line (project_polygon poly)) as [|p|ps|l0|ls|ps ls];
      destruct (negb _); simpl in Hl |- *; try contradiction; exact Hl.
  - intros line Ho.
    destruct (intersection line (project_polygon poly)); simpl in Ho;
      try contradiction; unfold appended; destruct (negb _); reflexivity.
  - apply (generate_run coords poly); assumption.
  - rewrite assemble_length
      by (rewrite directions_length, length_map; reflexivity).
    rewrite map_map. f_equal. apply map_ext. intro l.
    apply waypoints_on_length.
Qed.

Lemma retained_segments_have_length_witness :
  exists (scanned lines : list LineString) (wps : list Waypoint),
    @scan ExactKernel PlanarProjector 4 wedge_polygon 50
    = Ok (scanned, lines)
    /\ lines
       = flat_map (fun line =>
                     appended (@intersection ExactKernel line
                                 (@project_polygon PlanarProjector
                                    wedge_polygon)))
                  scanned
    /\ (forall l, In l lines -> 0 < length l)
    /\ (forall line,
          only_points (@intersection ExactKernel line
                         (@project_polygon PlanarProjector wedge_polygon)) ->
          appended (@intersection ExactKernel line
                      (@project_polygon PlanarProjector wedge_polygon))
          = [])
    /\ @generate_sweep_waypoints ExactKernel PlanarProjector 4 wedge 50 50 20
       = Ok wps
    /\ List.length wps
       = list_sum (map (fun l => Z.to_nat (num_points_of (length l) 50))
                       (sorted centroid_y lines)).
Proof.
  apply (@retained_segments_have_length ExactKernel PlanarProjector
           wedge wedge_polygon 50 50 20 exact_proper_lines).
  - split; [|split]; vm_compute; reflexivity.
  - reflexivity.
  - unfold Qeq. simpl. lia.
  - vm_compute. lia.
Defined.




(* ------------------------------------------------------------------ *)
(** ** Further properties of the planner *)

(** X2 (altitude).  Whatever the polygon, the spacing, the interval and
    the fuel: when the planner returns a path, every waypoint of it has
    the altitude that was asked for, unchanged. *)
Theorem waypoints_carry_altitude {K : GeometryKernel} {P : Projector}
    (fuel : nat) (coords : list Coord) (s w alt : Q) (wps : list Waypoint) :
  generate_sweep_waypoints fuel coords s w alt = Ok wps ->
  Forall (fun wp => snd wp = alt) wps.
Proof.
  assert (Hi : forall to_ll line L n indices acc pts,
             interpolate_loop to_ll line L n alt indices acc = Ok pts ->
             Forall (fun wp : Waypoint => snd wp = alt) acc ->
             Forall (fun wp : Waypoint => snd wp = alt) pts).
  { intros to_ll line L n indices.
    induction indices as [|i rest IH]; intros acc pts H Hacc; simpl in H.
    - inversion H; subst. exact Hacc.
    - destruct (py_truediv i (n - 1)) as [t| |]; simpl in H; try discriminate.
      destruct (to_ll _) as [lon lat].
      apply (IH _ _ H). apply Forall_app. split; [exact Hacc|].
      constructor; [reflexivity | constructor]. }
  assert (Hs : forall to_ll line pts,
             segment_waypoints to_ll w alt line = Ok pts ->
             Forall (fun wp : Waypoint => snd wp = alt) pts).
  { intros to_ll line pts H. unfold segment_waypoints in H.
    destruct (py_floordiv (length line) w) as [q| |]; simpl in H;
      try discriminate.
    apply (Hi _ _ _ _ _ _ _ H). constructor. }
  assert (Hw : forall to_ll lines acc r out,
             waypoint_loop to_ll w alt lines acc r = Ok out ->
             Forall (fun wp : Waypoint => snd wp = alt) acc ->
             Forall (fun wp : Waypoint => snd wp = alt) out).
  { intros to_ll lines.
    induction lines as [|line rest IH]; intros acc r out H Hacc; simpl in H.
    - inversion H; subst. exact Hacc.
    - destruct (segment_waypoints to_ll w alt line) as [pts| |] eqn:E;
        simpl in H; try discriminate.
      apply (IH _ _ _ H). apply Forall_app. split; [exact Hacc|].
      destruct r; [apply Forall_rev|]; apply (Hs _ _ _ E). }
  intro H. unfold generate_sweep_waypoints in H.
  destruct (Polygon_new coords) as [poly| |]; simpl in H; try discriminate.
  destruct (negb (is_valid poly) || is_empty poly); try discriminate.
  destruct (scan fuel poly s) as [r| |]; simpl in H; try discriminate.
  apply (Hw _ _ _ _ _ H). constructor.
Qed.

Lemma waypoints_carry_altitude_witness :
  exists wps,
    @generate_sweep_waypoints ExactKernel PlanarProjector 4 wedge 50 50 (-3)
    = Ok wps
    /\ Forall (fun wp : Waypoint => snd wp = -3) wps.
Proof.
  eexists. split.
  - vm_compute. reflexivity.
  - apply (@waypoints_carry_altitude ExactKernel PlanarProjector
             4 wedge 50 50 (-3)).
    vm_compute. reflexivity.
Defined.

Lemma fraction_bounds (n i : Z) :
  (2 <= n)%Z -> (0 <= i < n)%Z ->
  0 <= inject_Z i / inject_Z (n - 1) <= 1.
Proof.
  intros Hn Hi.
  assert (Hd : 0 < inject_Z (n - 1)).
  { change 0 with (inject_Z 0). rewrite <- Zlt_Qlt. lia. }
  split.
  - apply Qle_shift_div_l; [exact Hd|].
    setoid_replace (0 * inject_Z (n - 1)) with (inject_Z 0) by ring.
    rewrite <- Zle_Qle. lia.
  - apply Qle_shift_div_r; [exact Hd|].
    setoid_replace (1 * inject_Z (n - 1)) with (inject_Z (n - 1)) by ring.
    rewrite <- Zle_Qle. lia.
Qed.

Lemma planar_point_on_line (line : LineString) (n i : Z) :
  (2 <= n)%Z -> (0 <= i < n)%Z -> on_line line (planar_point line n i).
Proof.
  intros Hn Hi.
  destruct (planar_point_spec line n i Hn Hi) as [Hx Hy].
  destruct (fraction_bounds n i Hn Hi) as [Ht0 Ht1].
  set (t := inject_Z i / inject_Z (n - 1)) in *.
  split; [exact Hy|]. rewrite Hx.
  destruct (Qlt_le_dec (ls_x1 line) (ls_x0 line)) as [Hlt|Hle].
  - rewrite (Q.min_r (ls_x0 line) (ls_x1 line)) by lra.
    rewrite (Q.max_l (ls_x0 line) (ls_x1 line)) by lra.
    assert (H1 : 0 <= t * (ls_x0 line - ls_x1 line))
      by (apply Qmult_le_0_compat; lra).
    assert (H2 : 0 <= (1 - t) * (ls_x0 line - ls_x1 line))
      by (apply Qmult_le_0_compat; lra).
    split; lra.
  - rewrite (Q.min_l (ls_x0 line) (ls_x1 line)) by lra.
    rewrite (Q.max_r (ls_x0 line) (ls_x1 line)) by lra.
    assert (H1 : 0 <= t * (ls_x1 line - ls_x0 line))
      by (apply Qmult_le_0_compat; lra).
    assert (H2 : 0 <= (1 - t) * (ls_x1 line - ls_x0 line))
      by (apply Qmult_le_0_compat; lra).
    split; lra.
Qed.

Lemma planar_points_on_line (w : Q) (line : LineString) (p : Coord) :
  In p (planar_points w line) -> on_line line p.
Proof.
  unfold planar_points. rewrite in_map_iff. intros [i [<- Hi]].
  apply range_bounds in Hi.
  apply planar_point_on_line; [apply num_points_ge_2 | exact Hi].
Qed.

Lemma waypoints_on_planar (to_ll : Coord -> Coord) (w alt : Q)
    (line : LineString) :
  waypoints_on to_ll w alt line
  = map (fun p => (to_ll p, alt)) (planar_points w line).
Proof. unfold waypoints_on, planar_points. rewrite map_map. reflexivity. Qed.

Lemma assemble_map {A B : Type} (f : A -> B) (parts : list (list A)) :
  forall dirs : list bool,
    assemble dirs (map (map f) parts) = map f (assemble dirs parts).
Proof.
  induction parts as [|p parts IH]; intros [|d dirs]; try reflexivity.
  simpl map at 1. rewrite !assemble_cons, map_app, IH.
  destruct d; simpl; [rewrite map_rev|]; reflexivity.
Qed.

Lemma in_assemble {A : Type} (x : A) (parts : list (list A)) :
  forall dirs : list bool,
    In x (assemble dirs parts) -> exists part, In part parts /\ In x part.
Proof.
  induction parts as [|p parts IH]; intros [|d dirs] H;
    try (simpl in H; contradiction).
  rewrite assemble_cons in H. apply in_app_or in H. destruct H as [H|H].
  - exists p. split; [left; reflexivity|].
    destruct d; simpl in H; [apply in_rev in H|]; exact H.
  - destruct (IH dirs H) as [part [Hp Hx]].
    exists part. split; [right; exact Hp | exact Hx].
Qed.

(** X3 (waypoints on the segments).  On a polygon that the planner
    accepts, with a positive spacing and a non-zero interval, every
    waypoint of the returned path is the image, by the projection back to
    longitude and latitude, of a planar point that lies on one of the
    segments that the scan collected: at its height and between its two
    ends. *)
Theorem waypoints_lie_on_segments {K : GeometryKernel} {P : Projector}
    (coords : list Coord) (poly : Polygon) (s w alt : Q) :
  valid_input coords poly -> 0 < s -> ~ w == 0 ->
  exists planar : list Coord,
    (forall fuel, (List.length (scan_lines_of poly s) < fuel)%nat ->
       generate_sweep_waypoints fuel coords s w alt
       = Ok (map (fun p => (to_latlon poly p, alt)) planar))
    /\ forall p, In p planar ->
         exists l, In l (collected_of poly s) /\ on_line l p.
Proof.
  intros Hv Hs Hw.
  set (lines := sorted_lines_of poly s).
  exists (assemble (directions false (List.length lines))
            (map (planar_points w) lines)).
  split.
  - intros fuel Hf. rewrite (generate_run coords poly) by assumption.
    fold lines. f_equal. rewrite <- assemble_map. f_equal.
    rewrite map_map. apply map_ext. intro l. apply waypoints_on_planar.
  - intros p Hp. apply in_assemble in Hp. destruct Hp as [part [Hpart Hp]].
    apply in_map_iff in Hpart. destruct Hpart as [l [<- Hl]].
    exists l. split.
    + apply (Permutation_in l (sorted_perm centroid_y (collected_of poly s))).
      exact Hl.
    + apply (planar_points_on_line w). exact Hp.
Qed.

Lemma waypoints_lie_on_segments_witness :
  exists planar : list Coord,
    (forall fuel,
       (List.length (@scan_lines_of PlanarProjector you_polygon 45)
        < fuel)%nat ->
       @generate_sweep_waypoints ExactKernel PlanarProjector fuel you
         45 (-40) 20
       = Ok (map (fun p => (@to_latlon PlanarProjector you_polygon p, 20))
                 planar))
    /\ forall p, In p planar ->
         exists l,
           In l (@collected_of ExactKernel PlanarProjector you_polygon 45)
           /\ on_line l p.
Proof.
  apply (@waypoints_lie_on_segments ExactKernel PlanarProjector
           you you_polygon 45 (-40) 20).
  - split; [|split]; vm_compute; reflexivity.
  - reflexivity.
  - unfold Qeq. simpl. lia.
Defined.

Lemma planar_points_length (w : Q) (line : LineString) :
  List.length (planar_points w line)
  = Z.to_nat (num_points_of (length line) w).
Proof. unfold planar_points. rewrite length_map. apply range_length. Qed.

Lemma planar_points_nth (w : Q) (line : LineString) (i : nat) :
  (i < List.length (planar_points w line))%nat ->
  nth i (planar_points w line) (0, 0)
  = planar_point line (num_points_of (length line) w) (Z.of_nat i).
Proof.
  intro Hi. rewrite planar_points_length in Hi. unfold planar_points.
  rewrite (nth_indep _ (0, 0)
             (planar_point line (num_points_of (length line) w) 0%Z))
    by (rewrite length_map, range_length; exact Hi).
  rewrite map_nth, range_nth by exact Hi. reflexivity.
Qed.

(** X4 (distance between waypoints).  For an interval [w > 0] the planar
    points of a segment of length [L] are evenly spaced, [L / (n - 1)]
    apart with [n] the number of points.  A segment shorter than the
    interval gets its two ends only.  On a segment at least as long as
    the interval the points are at least [w] apart and less than [2 w]:
    the interval is the smallest distance between waypoints, not the
    largest. *)
Theorem waypoint_gap_bounds (project_to_latlon : Coord -> Coord)
    (w alt : Q) (line : LineString) :
  0 < w ->
  let L := length line in
  let n := num_points_of L w in
  let gap := L / inject_Z (n - 1) in
  exists planar : list Coord,
    segment_waypoints project_to_latlon w alt line
    = Ok (map (fun p => (project_to_latlon p, alt)) planar)
    /\ List.length planar = Z.to_nat n
    /\ (forall i, (S i < List.length planar)%nat ->
          Qabs (fst (nth (S i) planar (0, 0)) - fst (nth i planar (0, 0)))
          == gap)
    /\ (L < w -> n = 2%Z /\ gap == L)
    /\ (w <= L -> w <= gap /\ gap < 2 * w).
Proof.
  intros Hw L n gap.
  assert (Hn : (2 <= n)%Z) by apply num_points_ge_2.
  assert (Hd : 0 < inject_Z (n - 1)).
  { change 0 with (inject_Z 0). rewrite <- Zlt_Qlt. lia. }
  assert (Hd0 : ~ inject_Z (n - 1) == 0) by lra.
  assert (HL : 0 <= L) by apply length_nonneg.
  assert (Hqw : L / w * w == L) by (field; lra).
  assert (Hlo : inject_Z (Qfloor (L / w)) <= L / w) by apply Qfloor_le.
  assert (Hhi : L / w < inject_Z (Qfloor (L / w) + 1)) by apply Qlt_floor.
  exists (planar_points w line).
  split; [|split; [|split; [|split]]].
  - rewrite segment_waypoints_run by lra. f_equal. apply waypoints_on_planar.
  - apply planar_points_length.
  - intros i Hi.
    rewrite !planar_points_nth by lia.
    rewrite planar_points_length in Hi. fold L n in Hi |- *.
    destruct (planar_point_spec line n (Z.of_nat (S i)) Hn ltac:(lia))
      as [H1 _].
    destruct (planar_point_spec line n (Z.of_nat i) Hn ltac:(lia))
      as [H0 _].
    rewrite H1, H0, inject_nat_succ.
    setoid_replace
      (ls_x0 line
       + (inject_Z (Z.of_nat i) + 1) / inject_Z (n - 1)
         * (ls_x1 line - ls_x0 line)
       - (ls_x0 line
          + inject_Z (Z.of_nat i) / inject_Z (n - 1)
            * (ls_x1 line - ls_x0 line)))
      with ((ls_x1 line - ls_x0 line) * / inject_Z (n - 1))
      by (field; exact Hd0).
    rewrite Qabs_Qmult. unfold gap, L, length, Qdiv.
    rewrite (Qabs_pos (/ inject_Z (n - 1)))
      by (apply Qlt_le_weak, Qinv_lt_0_compat; exact Hd).
    reflexivity.
  - intro Hlt.
    assert (Hq1 : L / w < 1).
    { apply Qlt_shift_div_r; [exact Hw | lra]. }
    assert (Hf : (Qfloor (L / w) < 1)%Z).
    { rewrite Zlt_Qlt. change (inject_Z 1) with 1. lra. }
    assert (En : n = 2%Z) by (unfold n, num_points_of; fold L; lia).
    split; [exact En|]. unfold gap. rewrite En.
    change (inject_Z (2 - 1)) with 1. field.
  - intro Hle.
    assert (Hq1 : 1 <= L / w).
    { apply Qle_shift_div_l; [exact Hw | lra]. }
    assert (Hf : (1 <= Qfloor (L / w))%Z).
    { change 1%Z with (Qfloor 1). apply Qfloor_resp_le. exact Hq1. }
    assert (En : (n - 1 = Qfloor (L / w))%Z)
      by (unfold n, num_points_of; fold L; lia).
    unfold gap. rewrite En.
    set (f := inject_Z (Qfloor (L / w))) in *.
    assert (Hf1 : 1 <= f).
    { unfold f. change 1 with (inject_Z 1). rewrite <- Zle_Qle. exact Hf. }
    assert (Hhi' : L / w < f + 1).
    { unfold f. rewrite <- (inject_Z_plus _ 1). exact Hhi. }
    assert (Hfw : f * w <= L).
    { rewrite <- Hqw. apply Qmult_le_compat_r; lra. }
    assert (Hfw2 : L < (f + 1) * w).
    { rewrite <- Hqw at 1. apply Qmult_lt_compat_r; lra. }
    assert (Hfw3 : w <= f * w).
    { setoid_replace w with (1 * w) at 1 by ring.
      apply Qmult_le_compat_r; lra. }
    split.
    + apply Qle_shift_div_l; [lra|]. lra.
    + apply Qlt_shift_div_r; [lra|]. lra.
Qed.

Lemma waypoint_gap_bounds_witness :
  let line := mkLineString 0 0 100 in
  let L := length line in
  let n := num_points_of L 30 in
  let gap := L / inject_Z (n - 1) in
  exists planar : list Coord,
    segment_waypoints (fun c => c) 30 20 line
    = Ok (map (fun p => (p, 20)) planar)
    /\ List.length planar = Z.to_nat n
    /\ (forall i, (S i < List.length planar)%nat ->
          Qabs (fst (nth (S i) planar (0, 0)) - fst (nth i planar (0, 0)))
          == gap)
    /\ (L < 30 -> n = 2%Z /\ gap == L)
    /\ (30 <= L -> 30 <= gap /\ gap < 2 * 30).
Proof.
  apply (waypoint_gap_bounds (fun c => c) 30 20 (mkLineString 0 0 100)).
  reflexivity.
Defined.

(** A list in the order of its keys is its own sort. *)
Lemma sorted_of_ordered {A : Type} (key : A -> Q) (l : list A) :
  StronglySorted (key_le key) l -> sorted key l = l.
Proof.
  induction 1 as [|a l Hl IH Ha]; [reflexivity|].
  simpl. rewrite IH. destruct l as [|h t]; [reflexivity|].
  simpl. inversion Ha as [|? ? Hah _]; subst.
  assert (E : Qltb (key h) (key a) = false).
  { unfold Qltb. apply negb_false_iff. apply Qle_bool_iff. exact Hah. }
  rewrite E. reflexivity.
Qed.

Lemma StronglySorted_app {A : Type} (R : A -> A -> Prop) (l1 l2 : list A) :
  StronglySorted R l1 -> StronglySorted R l2 ->
  (forall a b, In a l1 -> In b l2 -> R a b) ->
  StronglySorted R (l1 ++ l2).
Proof.
  induction 1 as [|a l1 Hl1 IH Ha]; intros H2 Hc; [exact H2|].
  simpl. constructor.
  - apply IH; [exact H2|]. intros x y Hx Hy. apply Hc; [right|]; assumption.
  - apply Forall_app. split; [exact Ha|].
    apply Forall_forall. intros y Hy. apply Hc; [left; reflexivity | exact Hy].
Qed.

Lemma scan_ys_from (n : nat) (s : Q) :
  0 < s -> forall y x, In x (scan_ys n y s) -> y <= x.
Proof.
  intro Hs. induction n as [|n IH]; intros y x Hx; [contradiction|].
  destruct Hx as [<-|Hx]; [apply Qle_refl|].
  apply IH in Hx. lra.
Qed.

Lemma appended_linear (g : Geometry) (l : LineString) :
  In l (appended g) -> In l (linear_parts g).
Proof.
  unfold appended.
  destruct g; destruct (negb _); simpl; intro H; try contradiction; exact H.
Qed.

Section ScanOrder.

Context {K : GeometryKernel}.
Variables (poly : Polygon) (minx maxx s : Q).
Hypothesis at_height : lines_at_scan_height K.
Hypothesis spacing_positive : 0 < s.

Lemma clip_key (y : Q) (l : LineString) :
  In l (clipped_at poly minx maxx y) -> centroid_y l == y.
Proof.
  intro H. apply appended_linear in H.
  apply (at_height (scan_line minx maxx y) poly l H).
Qed.

Lemma clip_ordered (y : Q) :
  StronglySorted (key_le centroid_y) (clipped_at poly minx maxx y).
Proof.
  assert (H : forall l, In l (clipped_at poly minx maxx y) ->
                         centroid_y l == y)
    by (intros l; apply clip_key).
  induction (clipped_at poly minx maxx y) as [|a l IH]; constructor.
  - apply IH. intros b Hb. apply H. right. exact Hb.
  - apply Forall_forall. intros b Hb. unfold key_le.
    rewrite (H a) by (left; reflexivity). rewrite (H b) by (right; exact Hb).
    apply Qle_refl.
Qed.

Lemma collected_ordered (n : nat) :
  forall y,
    StronglySorted (key_le centroid_y)
      (flat_map (clipped_at poly minx maxx) (scan_ys n y s)).
Proof.
  induction n as [|n IH]; intro y; simpl; [constructor|].
  apply StronglySorted_app; [apply clip_ordered | apply IH|].
  intros a b Ha Hb. unfold key_le.
  apply in_flat_map in Hb. destruct Hb as [y' [Hy' Hb]].
  rewrite (clip_key y a Ha), (clip_key y' b Hb).
  apply (scan_ys_from n s spacing_positive) in Hy'. lra.
Qed.

End ScanOrder.


Lemma exact_lines_at_scan_height : lines_at_scan_height ExactKernel.
Proof.
  intros line poly l. simpl. unfold Exact.intersection.
  set (ps := Exact.clip line (exterior poly)).
  set (lns := if Qle_bool (ls_x0 line) (ls_x1 line)
              then Exact.spans_of (ls_y line) ps
              else rev (map Exact.flip (Exact.spans_of (ls_y line) ps))).
  assert (Hs : forall l0, In l0 (Exact.spans_of (ls_y line) ps) ->
                 ls_y l0 = ls_y line).
  { intros l0. unfold Exact.spans_of. rewrite in_flat_map.
    intros [p [_ Hl]]. destruct p as [x|a b]; [contradiction|].
    destruct (Qltb a b); [|contradiction].
    destruct Hl as [<-|[]]. reflexivity. }
  assert (Hl : forall l0, In l0 lns -> ls_y l0 == ls_y line).
  { intros l0 H0. unfold lns in H0.
    destruct (Qle_bool (ls_x0 line) (ls_x1 line)).
    - rewrite (Hs l0 H0). reflexivity.
    - apply in_rev in H0. apply in_map_iff in H0.
      destruct H0 as [l1 [<- H1]]. simpl. rewrite (Hs l1 H1). reflexivity. }
  intro H. apply Hl.
  destruct (if Qle_bool (ls_x0 line) (ls_x1 line)
            then Exact.points_of (ls_y line) ps
            else rev (Exact.points_of (ls_y line) ps)) as [|p [|p' pts]];
    destruct lns as [|l0 [|l1 lns']]; simpl in H; try contradiction;
    try exact H.
Qed.


(* ------------------------------------------------------------------ *)
(** ** Text *)

Lemma append_snoc (s t : string) (c : ascii) :
  String.append (snoc s c) t = String.append s (String c t).
Proof.
  unfold snoc. induction s as [|a s IH]; simpl; [reflexivity|].
  rewrite IH. reflexivity.
Qed.

Lemma append_empty_r (s : string) : String.append s EmptyString = s.
Proof. induction s as [|a s IH]; simpl; [|rewrite IH]; reflexivity. Qed.

Lemma split_words_word (t : string) :
  string_forall (fun c => negb (is_space c)) t = true ->
  forall cur rest,
    split_words cur (String.append t rest)
    = split_words (String.append cur t) rest.
Proof.
  induction t as [|c t IH]; intros H cur rest; simpl.
  - rewrite append_empty_r. reflexivity.
  - simpl in H. apply andb_true_iff in H. destruct H as [Hc Ht].
    apply negb_true_iff in Hc. rewrite Hc.
    rewrite (IH Ht). rewrite append_snoc. reflexivity.
Qed.

Lemma split_fields_field (sep : ascii) (t : string) :
  string_forall (fun c => negb (Ascii.eqb c sep)) t = true ->
  forall cur rest,
    split_fields sep cur (String.append t rest)
    = split_fields sep (String.append cur t) rest.
Proof.
  induction t as [|c t IH]; intros H cur rest; simpl.
  - rewrite append_empty_r. reflexivity.
  - simpl in H. apply andb_true_iff in H. destruct H as [Hc Ht].
    apply negb_true_iff in Hc. rewrite Hc.
    rewrite (IH Ht). rewrite append_snoc. reflexivity.
Qed.

(** The words of [" ".join(words)] are the words. *)
Lemma str_split_join (words : list string) :
  Forall (fun t => string_forall (fun c => negb (is_space c)) t = true
                   /\ is_empty_string t = false) words ->
  str_split (String.concat " " words) = words.
Proof.
  unfold str_split.
  induction 1 as [|t ts [Ht Hne] Hts IH]; [reflexivity|].
  simpl String.concat. destruct ts as [|t2 ts].
  - replace (split_words EmptyString t)
      with (split_words EmptyString (String.append t EmptyString))
      by (rewrite append_empty_r; reflexivity).
    rewrite split_words_word by exact Ht.
    simpl. rewrite Hne. reflexivity.
  - rewrite split_words_word by exact Ht.
    simpl String.append. simpl split_words at 1.
    change (is_space " ") with true. cbv iota. rewrite Hne.
    f_equal. exact IH.
Qed.

(** White space at the ends makes no word. *)
Lemma split_words_lstrip (s : string) :
  split_words EmptyString (lstrip s) = split_words EmptyString s.
Proof.
  induction s as [|c s IH]; [reflexivity|].
  simpl. destruct (is_space c) eqn:E; [exact IH|].
  simpl. rewrite E. reflexivity.
Qed.

Lemma split_words_rstrip (s : string) :
  forall cur, split_words cur (rstrip s) = split_words cur s.
Proof.
  induction s as [|c s IH]; intro cur; [reflexivity|].
  simpl rstrip.
  destruct (is_empty_string (rstrip s)) eqn:Ee; simpl andb.
  - destruct (is_space c) eqn:Ec.
    + simpl. rewrite Ec. rewrite <- (IH EmptyString).
      destruct (rstrip s); [|discriminate]. reflexivity.
    + simpl. rewrite Ec. apply IH.
  - simpl. destruct (is_space c); rewrite !IH; reflexivity.
Qed.

Lemma str_split_strip (s : string) : str_split (strip s) = str_split s.
Proof.
  unfold str_split, strip. rewrite split_words_lstrip. apply split_words_rstrip.
Qed.

Lemma strip_of_words (s : string) :
  str_split s <> [] -> is_empty_string (strip s) = false.
Proof.
  intro H. destruct (strip s) eqn:E; [|reflexivity].
  exfalso. apply H. rewrite <- str_split_strip, E. reflexivity.
Qed.

(* ------------------------------------------------------------------ *)
(** ** Properties of the reader and the writer *)

Lemma string_forall_impl (p q : ascii -> bool) (s : string) :
  (forall c, p c = true -> q c = true) ->
  string_forall p s = true -> string_forall q s = true.
Proof.
  intro Hpq. induction s as [|c s IH]; simpl; [reflexivity|].
  rewrite !andb_true_iff. intros [Hc Hs].
  split; [apply Hpq | apply IH]; assumption.
Qed.

Lemma plain_no_space (s : string) :
  plain s = true -> string_forall (fun c => negb (is_space c)) s = true.
Proof.
  apply string_forall_impl. intros c H.
  apply andb_true_iff in H. apply H.
Qed.

Lemma plain_no_comma (s : string) :
  plain s = true ->
  string_forall (fun c => negb (Ascii.eqb c comma)) s = true.
Proof.
  apply string_forall_impl. intros c H.
  apply andb_true_iff in H. apply H.
Qed.

Lemma string_forall_append (p : ascii -> bool) (s t : string) :
  string_forall p (String.append s t)
  = string_forall p s && string_forall p t.
Proof.
  induction s as [|c s IH]; simpl; [reflexivity|].
  rewrite IH, andb_assoc. reflexivity.
Qed.

Lemma split_fields_sep (sep : ascii) (cur rest : string) :
  split_fields sep cur (String sep rest)
  = cur :: split_fields sep EmptyString rest.
Proof. simpl. rewrite Ascii.eqb_refl. reflexivity. Qed.

Lemma split_fields_last (sep : ascii) (cur t : string) :
  string_forall (fun c => negb (Ascii.eqb c sep)) t = true ->
  split_fields sep cur t = [String.append cur t].
Proof.
  intro H.
  replace (split_fields sep cur t)
    with (split_fields sep cur (String.append t EmptyString))
    by (rewrite append_empty_r; reflexivity).
  rewrite split_fields_field by exact H. reflexivity.
Qed.

(** The fields of [a,b,c]. *)
Lemma token_fields (a b c : string) :
  plain a = true -> plain b = true -> plain c = true ->
  str_split_on comma
    (String.append a (String comma (String.append b (String comma c))))
  = [a; b; c].
Proof.
  intros Ha Hb Hc. unfold str_split_on.
  rewrite split_fields_field by (apply plain_no_comma; exact Ha).
  rewrite split_fields_sep.
  rewrite split_fields_field by (apply plain_no_comma; exact Hb).
  rewrite split_fields_sep.
  rewrite split_fields_last by (apply plain_no_comma; exact Hc).
  reflexivity.
Qed.

Section Reader.

Context {F : FloatSyntax}.

Lemma coord_token_word (w : Waypoint) :
  (let '(lon, lat, alt) := w in
   plain (str_of_float lon) = true /\ plain (str_of_float lat) = true
   /\ plain (str_of_float alt) = true) ->
  string_forall (fun c => negb (is_space c)) (coord_token w) = true
  /\ is_empty_string (coord_token w) = false.
Proof.
  destruct w as [[lon lat] alt]. intros [Hlon [Hlat Halt]].
  unfold coord_token. split.
  - rewrite string_forall_append. simpl. rewrite string_forall_append. simpl.
    rewrite !(plain_no_space _ Hlon), !(plain_no_space _ Hlat),
      !(plain_no_space _ Halt).
    reflexivity.
  - destruct (str_of_float lon); reflexivity.
Qed.

Lemma coord_loop_written (wps : list Waypoint) :
  well_written F wps ->
  forall acc,
    coord_loop (map coord_token wps) acc = Returns (acc ++ map fst wps).
Proof.
  induction wps as [|[[lon lat] alt] wps IH]; intros Hw acc.
  - simpl. rewrite app_nil_r. reflexivity.
  - destruct (Hw lon lat alt (or_introl eq_refl))
      as [Rlon [Rlat [Plon [Plat Palt]]]].
    simpl map. simpl coord_loop. unfold coord_token.
    rewrite token_fields by assumption.
    simpl. unfold py_float. rewrite Rlon, Rlat.
    rewrite IH.
    + rewrite <- app_assoc. reflexivity.
    + intros lon' lat' alt' Hin. apply Hw. right. exact Hin.
Qed.

(** X6 (what the reader returns).  When [parse_kml_polygon] returns, it
    returns at least three coordinate pairs, so that the planner's
    [Polygon(...)] of them does not raise: it is the ring of these
    pairs, closed, and is not empty. *)
Theorem parsed_polygon_has_three_coordinates (root : Element)
    (coords : list Coord) :
  parse_kml_polygon root = Returns coords ->
  (3 <= List.length coords)%nat
  /\ Polygon_new coords = Ok (mkPolygon (close_ring coords))
  /\ is_empty (mkPolygon (close_ring coords)) = false.
Proof.
  unfold parse_kml_polygon. intro H.
  destruct (find_descendant (kml_tag "Polygon") root) as [pe|];
    [|discriminate].
  destruct (find_descendant (kml_tag "coordinates") pe) as [ce|];
    [|discriminate].
  destruct (elem_text ce) as [text|]; [|discriminate].
  destruct (is_empty_string (strip text)); [discriminate|].
  destruct (coord_loop (str_split (strip text)) []) as [l|e]; [|discriminate].
  destruct (Nat.ltb (List.length l) 3) eqn:E; [discriminate|].
  inversion H; subst. apply Nat.ltb_ge in E.
  destruct coords as [|a [|b [|c rest]]]; simpl in E; try lia.
  split; [simpl; lia|]. split; [reflexivity|].
  unfold is_empty, close_ring. cbn [exterior].
  destruct (coord_eqb a (last (a :: b :: c :: rest) a)); reflexivity.
Qed.

(** X7 (the reader reads what the writer writes).  When the text of
    the coordinates of the first polygon of a document is the text that
    [write_kml_waypoints] makes of three waypoints or more, written with
    plain characters and readable numbers, [parse_kml_polygon] returns
    the longitude and latitude of each waypoint, in order, and drops the
    altitudes. *)
Theorem reader_reads_written_coordinates
    (root polygon_elem coords_elem : Element) (wps : list Waypoint) :
  find_descendant (kml_tag "Polygon") root = Some polygon_elem ->
  find_descendant (kml_tag "coordinates") polygon_elem = Some coords_elem ->
  elem_text coords_elem = Some (coords_text_of wps) ->
  well_written F wps ->
  (3 <= List.length wps)%nat ->
  parse_kml_polygon root = Returns (map fst wps).
Proof.
  intros Hp Hc Ht Hw Hn. unfold parse_kml_polygon.
  rewrite Hp, Hc, Ht.
  assert (Hs : str_split (coords_text_of wps) = map coord_token wps).
  { unfold coords_text_of. apply str_split_join.
    apply Forall_forall. intros t Hin. apply in_map_iff in Hin.
    destruct Hin as [[[lon lat] alt] [<- Hin]].
    apply coord_token_word.
    destruct (Hw lon lat alt Hin) as [_ [_ [H1 [H2 H3]]]]. auto. }
  rewrite strip_of_words
    by (rewrite Hs; destruct wps; [simpl in Hn; lia | discriminate]).
  rewrite str_split_strip, Hs, coord_loop_written by exact Hw.
  simpl app. rewrite length_map.
  destruct (Nat.ltb _ 3) eqn:E; [|reflexivity].
  apply Nat.ltb_lt in E. exfalso. apply (Nat.lt_irrefl 3).
  eapply Nat.le_lt_trans; [exact Hn | exact E].
Qed.

(** X8 (the reader does not read the written document).  The document
    that [write_kml_waypoints] builds has a [LineString] and no
    [Polygon]: whatever the waypoints, [parse_kml_polygon] refuses it,
    as built and as read back from the file. *)
Theorem reader_refuses_written_document (wps : list Waypoint) :
  parse_kml_polygon (write_kml_waypoints wps)
  = Throws (Builtin (ValueError "No Polygon found in KML file."))
  /\ parse_kml_polygon (reread (write_kml_waypoints wps))
     = Throws (Builtin (ValueError "No Polygon found in KML file.")).
Proof. split; reflexivity. Qed.

(** X9 (words without a comma).  A word of the coordinates text that
    has no comma is passed over without an error: the loop returns what
    it returns without the word. *)
Theorem word_without_comma_is_skipped (word : string) :
  string_forall (fun c => negb (Ascii.eqb c comma)) word = true ->
  forall (before after : list string) (coord_list : list Coord),
    coord_loop (before ++ word :: after) coord_list
    = coord_loop (before ++ after) coord_list.
Proof.
  intros Hw before after.
  induction before as [|t before IH]; intro acc.
  - simpl app. simpl coord_loop. unfold str_split_on.
    rewrite split_fields_last by exact Hw. reflexivity.
  - simpl app. simpl coord_loop.
    destruct (Nat.ltb _ 2); [apply IH|].
    destruct (py_float _); [|reflexivity].
    destruct (py_float _); [|reflexivity].
    apply IH.
Qed.

End Reader.

Lemma parsed_polygon_has_three_coordinates_witness :
  (3 <= List.length [(0, 0); (0, 100); (100, 100); (100, 0); (0, 0)]%Q)%nat
  /\ Polygon_new [(0, 0); (0, 100); (100, 100); (100, 0); (0, 0)]
     = Ok (mkPolygon
             (close_ring [(0, 0); (0, 100); (100, 100); (100, 0); (0, 0)]))
  /\ is_empty
       (mkPolygon
          (close_ring [(0, 0); (0, 100); (100, 100); (100, 0); (0, 0)]))
     = false.
Proof.
  apply (@parsed_polygon_has_three_coordinates DecimalSyntax
           (polygon_document square_text)).
  vm_compute. reflexivity.
Defined.

Lemma reader_reads_written_coordinates_witness :
  @parse_kml_polygon DecimalSyntax
    (polygon_document
       (@coords_text_of DecimalSyntax
          [(0, 100, 20); (25 # 2, - 1 # 4, 20); (7, 8, 9)]))
  = Returns (map fst [(0, 100, 20); (25 # 2, - 1 # 4, 20); (7, 8, 9)]).
Proof.
  eapply (@reader_reads_written_coordinates DecimalSyntax).
  - vm_compute. reflexivity.
  - vm_compute. reflexivity.
  - reflexivity.
  - intros lon lat alt Hin. simpl in Hin.
    destruct Hin as [H|[H|[H|[]]]]; inversion H; subst;
      repeat split; vm_compute; reflexivity.
  - simpl. lia.
Defined.

Lemma word_without_comma_is_skipped_witness :
  @coord_loop DecimalSyntax
    (["1,2"%string] ++ "abc"%string :: ["3,4"%string]) []
  = @coord_loop DecimalSyntax (["1,2"%string] ++ ["3,4"%string]) [].
Proof.
  apply (@word_without_comma_is_skipped DecimalSyntax "abc").
  vm_compute. reflexivity.
Defined.

(* ------------------------------------------------------------------ *)
(** ** The size of the path *)

(** X10 (size of the path).  On a polygon that the planner accepts,
    with a positive spacing and a non-zero interval, the returned path
    has at least two waypoints for every collected segment, and is empty
    exactly when the scan collected no segment: a path is never a single
    waypoint. *)
Theorem path_has_two_waypoints_per_segment {K : GeometryKernel}
    {P : Projector} (coords : list Coord) (poly : Polygon) (s w alt : Q) :
  valid_input coords poly -> 0 < s -> ~ w == 0 ->
  exists wps : list Waypoint,
    (forall fuel, (List.length (scan_lines_of poly s) < fuel)%nat ->
       generate_sweep_waypoints fuel coords s w alt = Ok wps)
    /\ (2 * List.length (collected_of poly s) <= List.length wps)%nat
    /\ (wps = [] <-> collected_of poly s = [])
    /\ List.length wps <> 1%nat.
Proof.
  intros Hv Hs Hw. eexists. split; [|split; [|split]].
  - intros fuel Hf. apply (generate_run coords poly); assumption.
  - rewrite assemble_length
      by (rewrite directions_length, length_map; reflexivity).
    rewrite map_map.
    rewrite <- (sorted_length centroid_y (collected_of poly s)).
    fold (sorted_lines_of poly s).
    induction (sorted_lines_of poly s) as [|l ls IH]; [simpl; lia|].
    simpl map. simpl list_sum. rewrite waypoints_on_length.
    pose proof (num_points_ge_2 (length l) w). simpl List.length. lia.
  - assert (Hlen : List.length (sorted_lines_of poly s)
                   = List.length (collected_of poly s))
      by apply sorted_length.
    split; intro H.
    + destruct (sorted_lines_of poly s) as [|l ls] eqn:E.
      * destruct (collected_of poly s); [reflexivity | discriminate].
      * exfalso. simpl in H. rewrite assemble_cons in H.
        apply app_eq_nil in H. destruct H as [H _].
        assert (Hl : List.length
                       (orient false (waypoints_on (to_latlon poly) w alt l))
                     = 0%nat) by (rewrite H; reflexivity).
        simpl in Hl. rewrite waypoints_on_length in Hl.
        pose proof (num_points_ge_2 (length l) w). lia.
    + rewrite H in Hlen.
      destruct (sorted_lines_of poly s); [reflexivity | discriminate].
  - rewrite assemble_length
      by (rewrite directions_length, length_map; reflexivity).
    rewrite map_map.
    destruct (sorted_lines_of poly s) as [|l ls]; [simpl; lia|].
    simpl map. simpl list_sum. rewrite waypoints_on_length.
    pose proof (num_points_ge_2 (length l) w). lia.
Qed.

Lemma path_has_two_waypoints_per_segment_witness :
  exists wps : list Waypoint,
    (forall fuel,
       (List.length (@scan_lines_of PlanarProjector wedge_polygon 50)
        < fuel)%nat ->
       @generate_sweep_waypoints ExactKernel PlanarProjector fuel wedge
         50 200 20 = Ok wps)
    /\ (2 * List.length
              (@collected_of ExactKernel PlanarProjector wedge_polygon 50)
        <= List.length wps)%nat
    /\ (wps = []
        <-> @collected_of ExactKernel PlanarProjector wedge_polygon 50 = [])
    /\ List.length wps <> 1%nat.
Proof.
  apply (@path_has_two_waypoints_per_segment ExactKernel PlanarProjector
           wedge wedge_polygon 50 200 20).
  - split; [|split]; vm_compute; reflexivity.
  - reflexivity.
  - unfold Qeq. simpl. lia.
Defined.

(* ------------------------------------------------------------------ *)
(** ** Rounding to binary64 is monotone *)

Lemma two_power_pos (e : Z) : 0 < 2 ^ e.
Proof. apply Qpower_0_lt. reflexivity. Qed.

Lemma two_power_plus (a b : Z) : 2 ^ (a + b) == 2 ^ a * 2 ^ b.
Proof. apply Qpower_plus. discriminate. Qed.

Lemma two_power_succ (a : Z) : 2 ^ (a + 1) == 2 * 2 ^ a.
Proof. rewrite two_power_plus. change (2 ^ 1) with 2. ring. Qed.

Lemma two_power_le (a b : Z) : (a <= b)%Z -> 2 ^ a <= 2 ^ b.
Proof. intro H. apply Qpower_le_compat_l; [exact H | discriminate]. Qed.

Lemma two_power_Z (k : Z) : (0 <= k)%Z -> inject_Z (2 ^ k) == 2 ^ k.
Proof. intro H. rewrite Zpower_Qpower by exact H. reflexivity. Qed.

Lemma binade_spec (x : Q) :
  0 < x -> 2 ^ Binary64.binade x <= x /\ x < 2 ^ (Binary64.binade x + 1).
Proof.
  intro Hx. unfold Binary64.binade.
  destruct x as [p d]. cbn [Qnum Qden].
  assert (Hp : (0 < p)%Z).
  { unfold Qlt in Hx. simpl in Hx. lia. }
  set (lp := Z.log2 p). set (ld := Z.log2 (Zpos d)).
  destruct (Z.log2_spec p Hp) as [Hp1 Hp2]. fold lp in Hp1, Hp2.
  destruct (Z.log2_spec (Zpos d) ltac:(lia)) as [Hd1 Hd2]. fold ld in Hd1, Hd2.
  assert (Hlp : (0 <= lp)%Z) by apply Z.log2_nonneg.
  assert (Hld : (0 <= ld)%Z) by apply Z.log2_nonneg.
  set (x := p # d) in *.
  assert (Ex : x * inject_Z (Zpos d) == inject_Z p).
  { unfold x. rewrite (Qmake_Qdiv p d). field. discriminate. }
  assert (HA1 : 2 ^ lp <= inject_Z p).
  { rewrite <- two_power_Z by exact Hlp. rewrite <- Zle_Qle. exact Hp1. }
  assert (HA2 : inject_Z p < 2 * 2 ^ lp).
  { rewrite <- two_power_succ. rewrite <- two_power_Z by lia.
    rewrite <- Zlt_Qlt. replace (lp + 1)%Z with (Z.succ lp) by lia. exact Hp2. }
  assert (HB1 : 2 ^ ld <= inject_Z (Zpos d)).
  { rewrite <- two_power_Z by exact Hld. rewrite <- Zle_Qle. exact Hd1. }
  assert (HB2 : inject_Z (Zpos d) < 2 * 2 ^ ld).
  { rewrite <- two_power_succ. rewrite <- two_power_Z by lia.
    rewrite <- Zlt_Qlt. replace (ld + 1)%Z with (Z.succ ld) by lia. exact Hd2. }
  assert (HA0 := two_power_pos lp). assert (HB0 := two_power_pos ld).
  assert (E0 : 2 ^ (lp - ld) * 2 ^ ld == 2 ^ lp).
  { rewrite <- two_power_plus. replace (lp - ld + ld)%Z with lp by lia.
    reflexivity. }
  set (A := 2 ^ lp) in *. set (B := 2 ^ ld) in *.
  set (D := inject_Z (Zpos d)) in *. set (Pq := inject_Z p) in *.
  set (T := 2 ^ (lp - ld)) in *.
  assert (HT0 : 0 < T) by apply two_power_pos.
  assert (Hup : x < 2 * T).
  { (* x * B <= x * D = P < 2 A = 2 T B *)
    assert (H1 : x * B <= x * D).
    { apply Qmult_le_l; [exact Hx | exact HB1]. }
    assert (H2 : x * B < 2 * T * B) by (rewrite Ex in H1; lra).
    apply (Qmult_lt_r _ _ B HB0). exact H2. }
  assert (Hlo : T < 2 * x).
  { (* T * D < T * 2B = 2A <= 2P = 2 x D *)
    assert (H1 : T * D < T * (2 * B)).
    { apply Qmult_lt_l; [exact HT0 | exact HB2]. }
    assert (HD0 : 0 < D) by lra.
    assert (H2 : T * D < 2 * x * D).
    { setoid_replace (2 * x * D) with (2 * (x * D)) by ring.
      rewrite Ex. setoid_replace (T * (2 * B)) with (2 * (T * B)) in H1 by ring.
      rewrite E0 in H1. lra. }
    apply (Qmult_lt_r _ _ D HD0). exact H2. }
  destruct (Qle_bool T x) eqn:E.
  - apply Qle_bool_iff in E. split; [exact E|].
    rewrite two_power_succ. exact Hup.
  - apply Qle_bool_false in E.
    replace (lp - ld - 1 + 1)%Z with (lp - ld)%Z by lia.
    split; [|exact E].
    assert (E1 : 2 * 2 ^ (lp - ld - 1) == T).
    { rewrite <- two_power_succ.
      replace (lp - ld - 1 + 1)%Z with (lp - ld)%Z by lia. reflexivity. }
    lra.
Qed.

Lemma binade_le (x y : Q) :
  0 < x -> x <= y -> (Binary64.binade x <= Binary64.binade y)%Z.
Proof.
  intros Hx Hxy.
  destruct (binade_spec x Hx) as [Hx1 _].
  destruct (binade_spec y ltac:(lra)) as [_ Hy2].
  assert (H : 2 ^ Binary64.binade x < 2 ^ (Binary64.binade y + 1)) by lra.
  apply Qpower_lt_compat_l_inv in H; [lia | reflexivity].
Qed.

Lemma rne_floor (m : Q) :
  (Qfloor m <= Binary64.rne m <= Qfloor m + 1)%Z.
Proof.
  unfold Binary64.rne.
  destruct (Qltb _ (1 # 2)); [lia|].
  destruct (Qltb (1 # 2) _); [lia|].
  destruct (Z.even _); lia.
Qed.

Lemma rne_monotone (a b : Q) :
  a <= b -> (Binary64.rne a <= Binary64.rne b)%Z.
Proof.
  intro Hab.
  assert (Hf : (Qfloor a <= Qfloor b)%Z) by (apply Qfloor_resp_le; exact Hab).
  destruct (Z.eq_dec (Qfloor a) (Qfloor b)) as [E|N].
  - unfold Binary64.rne. rewrite <- E.
    set (f := Qfloor a).
    destruct (Qltb (a - inject_Z f) (1 # 2)) eqn:A1.
    + destruct (Qltb (b - inject_Z f) (1 # 2)); [lia|].
      destruct (Qltb (1 # 2) (b - inject_Z f)); [lia|].
      destruct (Z.even f); lia.
    + unfold Qltb in A1. apply negb_false_iff in A1.
      apply Qle_bool_iff in A1.
      assert (B1 : Qltb (b - inject_Z f) (1 # 2) = false).
      { unfold Qltb. apply negb_false_iff. apply Qle_bool_iff. lra. }
      rewrite B1.
      destruct (Qltb (1 # 2) (a - inject_Z f)) eqn:A2.
      * apply Qltb_true in A2.
        assert (B2 : Qltb (1 # 2) (b - inject_Z f) = true)
          by (apply Qltb_true; lra).
        rewrite B2. lia.
      * destruct (Qltb (1 # 2) (b - inject_Z f)); destruct (Z.even f); lia.
  - pose proof (rne_floor a). pose proof (rne_floor b). lia.
Qed.

Lemma rne_Z (z : Z) : Binary64.rne (inject_Z z) = z.
Proof.
  unfold Binary64.rne. rewrite Qfloor_Z.
  assert (E : Qltb (inject_Z z - inject_Z z) (1 # 2) = true)
    by (apply Qltb_true; lra).
  rewrite E. reflexivity.
Qed.

Lemma rne_ge (z : Z) (a : Q) : inject_Z z <= a -> (z <= Binary64.rne a)%Z.
Proof.
  intro H. rewrite <- (rne_Z z). apply rne_monotone. exact H.
Qed.

Lemma rne_le (z : Z) (a : Q) : a <= inject_Z z -> (Binary64.rne a <= z)%Z.
Proof.
  intro H. rewrite <- (rne_Z z). apply rne_monotone. exact H.
Qed.

Lemma ulp_exp_le (x y : Q) :
  0 < x -> x <= y -> (Binary64.ulp_exp x <= Binary64.ulp_exp y)%Z.
Proof.
  intros Hx Hxy. unfold Binary64.ulp_exp.
  pose proof (binade_le x y Hx Hxy). lia.
Qed.

Lemma round_pos_nonneg (x : Q) : 0 < x -> 0 <= Binary64.round_pos x.
Proof.
  intro Hx. unfold Binary64.round_pos.
  assert (Hu := two_power_pos (Binary64.ulp_exp x)).
  apply Qmult_le_0_compat; [|lra].
  change 0 with (inject_Z 0). rewrite <- Zle_Qle. apply rne_ge.
  change (inject_Z 0) with 0. apply Qle_shift_div_l; [exact Hu | lra].
Qed.

Lemma round_pos_monotone (x y : Q) :
  0 < x -> x <= y -> Binary64.round_pos x <= Binary64.round_pos y.
Proof.
  intros Hx Hxy.
  assert (Hy : 0 < y) by lra.
  pose proof (ulp_exp_le x y Hx Hxy) as Hu.
  unfold Binary64.round_pos.
  set (ux := Binary64.ulp_exp x) in *. set (uy := Binary64.ulp_exp y) in *.
  assert (Hux := two_power_pos ux). assert (Huy := two_power_pos uy).
  destruct (Z.eq_dec ux uy) as [E|N].
  - rewrite <- E. apply Qmult_le_compat_r; [|lra].
    rewrite <- Zle_Qle. apply rne_monotone.
    apply Qmult_le_compat_r; [exact Hxy|].
    apply Qlt_le_weak. apply Qinv_lt_0_compat. exact Hux.
  - assert (Hlt : (ux < uy)%Z) by lia.
    set (ex := Binary64.binade x) in *. set (ey := Binary64.binade y) in *.
    assert (Hey : (uy = ey - 52)%Z /\ (ux + 53 <= ey)%Z).
    { unfold ux, uy, Binary64.ulp_exp in *. fold ex ey in Hlt |- *. lia. }
    destruct Hey as [Euy Hk].
    destruct (binade_spec x Hx) as [_ Hx2]. fold ex in Hx2.
    destruct (binade_spec y Hy) as [Hy1 _]. fold ey in Hy1.
    assert (Hex : (ex + 1 <= ey)%Z).
    { unfold ux, Binary64.ulp_exp in Hk. fold ex in Hk. lia. }
    (* the left side is at most 2^ey, the right side at least 2^ey *)
    apply Qle_trans with (2 ^ ey).
    + set (k := (ey - ux)%Z).
      assert (Hk0 : (0 <= k)%Z) by (unfold k; lia).
      assert (Ek : 2 ^ k * 2 ^ ux == 2 ^ ey).
      { rewrite <- two_power_plus. unfold k.
        replace (ey - ux + ux)%Z with ey by lia. reflexivity. }
      rewrite <- Ek. apply Qmult_le_compat_r; [|lra].
      rewrite <- (two_power_Z k Hk0). rewrite <- Zle_Qle.
      apply rne_le. rewrite (two_power_Z k Hk0).
      apply Qle_shift_div_r; [exact Hux|]. rewrite Ek.
      apply Qle_trans with (2 ^ (ex + 1)); [lra|].
      apply two_power_le. exact Hex.
    + assert (Ek : 2 ^ 52 * 2 ^ uy == 2 ^ ey).
      { rewrite <- two_power_plus. rewrite Euy.
        replace (52 + (ey - 52))%Z with ey by lia. reflexivity. }
      rewrite <- Ek at 1. apply Qmult_le_compat_r; [|lra].
      rewrite <- (two_power_Z 52 ltac:(lia)). rewrite <- Zle_Qle.
      apply rne_ge. rewrite (two_power_Z 52 ltac:(lia)).
      apply Qle_shift_div_l; [exact Huy|]. rewrite Ek. exact Hy1.
Qed.

Lemma round_monotone : monotone Binary64.round.
Proof.
  intros x y Hxy. unfold Binary64.round. cbv zeta.
  assert (Ex := Qred_correct x). assert (Ey := Qred_correct y).
  set (x' := Qred x) in *. set (y' := Qred y) in *.
  rewrite !Qred_correct.
  assert (Hxy' : x' <= y') by (rewrite Ex, Ey; exact Hxy).
  destruct (Qeq_bool x' 0) eqn:X0.
  - apply Qeq_bool_iff in X0.
    destruct (Qeq_bool y' 0) eqn:Y0; [apply Qle_refl|].
    apply Qeq_bool_false in Y0.
    assert (Hy : 0 < y') by lra.
    rewrite (proj2 (Qle_bool_iff 0 y')) by lra.
    apply round_pos_nonneg. exact Hy.
  - apply Qeq_bool_false in X0.
    destruct (Qle_bool 0 x') eqn:Xs.
    + apply Qle_bool_iff in Xs. assert (Hx : 0 < x') by lra.
      assert (Y0 : Qeq_bool y' 0 = false) by (apply Qeq_bool_false; lra).
      rewrite Y0. rewrite (proj2 (Qle_bool_iff 0 y')) by lra.
      apply round_pos_monotone; assumption.
    + apply Qle_bool_false in Xs.
      assert (Hnx := round_pos_nonneg (- x') ltac:(lra)).
      destruct (Qeq_bool y' 0) eqn:Y0; [lra|].
      apply Qeq_bool_false in Y0.
      destruct (Qle_bool 0 y') eqn:Ys.
      * apply Qle_bool_iff in Ys.
        assert (Hny := round_pos_nonneg y' ltac:(lra)). lra.
      * apply Qle_bool_false in Ys.
        assert (H := round_pos_monotone (- y') (- x') ltac:(lra) ltac:(lra)).
        lra.
Qed.

(* ------------------------------------------------------------------ *)
(** ** The scan loop with rounded sums *)

Lemma scan_ys_fl_length (rnd : Q -> Q) (n : nat) (y s : Q) :
  List.length (scan_ys_fl rnd n y s) = n.
Proof.
  revert y. induction n as [|n IH]; intro y; simpl; [reflexivity|].
  rewrite IH. reflexivity.
Qed.

Lemma scan_ys_fl_nth (rnd : Q -> Q) (n : nat) (s : Q) :
  forall (y : Q) (k : nat),
    (k < n)%nat -> nth k (scan_ys_fl rnd n y s) 0 = scan_y_fl rnd k y s.
Proof.
  induction n as [|n IH]; intros y k Hk; [lia|].
  destruct k as [|k]; simpl; [reflexivity|]. apply IH. lia.
Qed.

(** When the sums are exact the values are [y + k * s]. *)
Lemma scan_y_fl_exact (rnd : Q -> Q) (s : Q) (n : nat) :
  forall y,
    (forall k, (k < n)%nat ->
       rnd (scan_y_fl rnd k y s + s) == scan_y_fl rnd k y s + s) ->
    forall k, (k <= n)%nat ->
      scan_y_fl rnd k y s == y + inject_Z (Z.of_nat k) * s.
Proof.
  induction n as [|n IH]; intros y He k Hk.
  - replace k with O by lia. simpl. change (inject_Z 0) with 0. ring.
  - destruct k as [|k]; [simpl; change (inject_Z 0) with 0; ring|].
    simpl scan_y_fl. rewrite IH; [| |lia].
    + rewrite (He O ltac:(lia)). rewrite inject_nat_succ. simpl. ring.
    + intros j Hj. apply (He (S j)). lia.
Qed.

(** The number of rounds from the exact values. *)
Lemma exit_index_exact (miny maxy s : Q) (n : nat) :
  0 < s -> miny <= maxy ->
  (forall k, (k < n)%nat -> miny + inject_Z (Z.of_nat k) * s <= maxy) ->
  maxy < miny + inject_Z (Z.of_nat n) * s ->
  n = Z.to_nat (Qfloor ((maxy - miny) / s) + 1).
Proof.
  intros Hs Hy Hin Hout.
  set (h := (maxy - miny) / s).
  assert (Hhs : h * s == maxy - miny) by (unfold h; field; lra).
  assert (Hlo : inject_Z (Qfloor h) <= h) by apply Qfloor_le.
  assert (Hhi : h < inject_Z (Qfloor h + 1)) by apply Qlt_floor.
  destruct n as [|n].
  { change (inject_Z (Z.of_nat 0)) with 0 in Hout. lra. }
  specialize (Hin n ltac:(lia)).
  rewrite inject_nat_succ in Hout.
  assert (H1 : inject_Z (Z.of_nat n) <= h).
  { apply (Qmult_le_r _ _ s Hs). lra. }
  assert (H2 : h < inject_Z (Z.of_nat n) + 1).
  { apply (Qmult_lt_r _ _ s Hs). lra. }
  assert (H3 : inject_Z (Z.of_nat n) < inject_Z (Qfloor h + 1)) by lra.
  assert (H4 : inject_Z (Qfloor h) < inject_Z (Z.of_nat n + 1)).
  { rewrite inject_Z_plus. change (inject_Z 1) with 1. lra. }
  rewrite <- Zlt_Qlt in H3, H4. lia.
Qed.

Section RoundedLoop.

Context {K : GeometryKernel}.
Variables (rnd : Q -> Q) (poly : Polygon) (minx maxx maxy s : Q).

Lemma scan_loop_fl_run (n : nat) :
  forall (y : Q) (scanned lines : list LineString) (fuel : nat),
    (n < fuel)%nat ->
    (forall k, (k < n)%nat -> scan_y_fl rnd k y s <= maxy) ->
    maxy < scan_y_fl rnd n y s ->
    scan_loop_fl rnd fuel poly minx maxx maxy s y scanned lines
    = Ok (scanned ++ map (scan_line minx maxx) (scan_ys_fl rnd n y s),
          lines ++ flat_map (clipped_at poly minx maxx)
                            (scan_ys_fl rnd n y s)).
Proof.
  induction n as [|n IH]; intros y scanned lines fuel Hf Hin Hout;
    (destruct fuel as [|fuel]; [lia|]); simpl scan_loop_fl.
  - assert (E : Qle_bool y maxy = false).
    { apply Qle_bool_false. exact Hout. }
    rewrite E. simpl. rewrite !app_nil_r. reflexivity.
  - assert (E : Qle_bool y maxy = true).
    { apply Qle_bool_iff. apply (Hin O). lia. }
    rewrite E. rewrite IH.
    + simpl. rewrite <- !app_assoc. reflexivity.
    + lia.
    + intros k Hk. apply (Hin (S k)). lia.
    + exact Hout.
Qed.

Lemma scan_loop_fl_stuck (fuel : nat) :
  forall (y : Q) (scanned lines : list LineString),
    (forall n, scan_y_fl rnd n y s <= maxy) ->
    scan_loop_fl rnd fuel poly minx maxx maxy s y scanned lines = OutOfFuel.
Proof.
  induction fuel as [|fuel IH]; intros y scanned lines H; simpl.
  - reflexivity.
  - assert (E : Qle_bool y maxy = true)
      by (apply Qle_bool_iff; exact (H O)).
    rewrite E. apply IH. intro n. apply (H (S n)).
Qed.

Lemma scan_loop_fl_returned (fuel : nat) :
  forall (y : Q) (scanned lines scanned' lines' : list LineString),
    scan_loop_fl rnd fuel poly minx maxx maxy s y scanned lines
    = Ok (scanned', lines') ->
    exists n,
      (n < fuel)%nat
      /\ (forall k, (k < n)%nat -> scan_y_fl rnd k y s <= maxy)
      /\ maxy < scan_y_fl rnd n y s
      /\ scanned' = scanned ++ map (scan_line minx maxx) (scan_ys_fl rnd n y s).
Proof.
  induction fuel as [|fuel IH]; intros y scanned lines scanned' lines' H;
    simpl in H; [discriminate|].
  destruct (Qle_bool y maxy) eqn:E.
  - apply IH in H. destruct H as [n [Hn [Hin [Hout Hsc]]]].
    exists (S n). split; [lia|]. split; [|split].
    + intros [|k] Hk; [apply Qle_bool_iff; exact E | apply Hin; lia].
    + exact Hout.
    + rewrite Hsc. simpl. rewrite <- app_assoc. reflexivity.
  - inversion H; subst. exists O. split; [lia|]. split; [|split].
    + intros k Hk. lia.
    + apply Qle_bool_false. exact E.
    + simpl. rewrite app_nil_r. reflexivity.
Qed.

(** A spacing that is not positive never takes [y] beyond [maxy]. *)
Lemma scan_y_fl_below (n : nat) :
  monotone rnd -> rnd maxy <= maxy -> s <= 0 ->
  forall y, y <= maxy -> scan_y_fl rnd n y s <= maxy.
Proof.
  intros Hm Hr Hs. induction n as [|n IH]; intros y Hy; simpl; [exact Hy|].
  apply IH. apply Qle_trans with (rnd maxy); [|exact Hr].
  apply Hm. lra.
Qed.

(** A spacing that the sum absorbs leaves [y] where it is. *)
Lemma scan_y_fl_absorbed (y : Q) (n : nat) :
  rnd (y + s) = y -> scan_y_fl rnd n y s = y.
Proof.
  intro H. induction n as [|n IH]; simpl; [reflexivity|].
  rewrite H. exact IH.
Qed.

End RoundedLoop.

(** C4, as the program has it.  For a non-empty polygon with planar
    bounds [minx, miny, maxx, maxy] and a spacing [s > 0]: the scan lines
    are those at the values that [y] takes, [miny] first and then the
    rounded sum of the last value and [s], for as long as the value is at
    most [maxy]; each spans [minx, maxx]; when the loop leaves after [n]
    rounds it has built these [n] lines.  When every sum was exact the
    values are [miny + k * s] and [n] is [floor((maxy - miny) / s) + 1];
    when the sums round, [n] can be another number. *)
Theorem scan_lines_of_rounded_sums {K : GeometryKernel} {P : Projector}
    (rnd : Q -> Q) (poly : Polygon) (minx miny maxx maxy s : Q) (n : nat) :
  is_empty poly = false ->
  bounds (project_polygon poly) = (minx, miny, maxx, maxy) ->
  0 < s ->
  (forall k, (k < n)%nat -> scan_y_fl rnd k miny s <= maxy) ->
  maxy < scan_y_fl rnd n miny s ->
  exists scanned : list LineString,
    (forall fuel, (n < fuel)%nat ->
       exists lines, scan_fl rnd fuel poly s = Ok (scanned, lines))
    /\ List.length scanned = n
    /\ (forall k, (k < n)%nat ->
          let line := nth k scanned (scan_line 0 0 0) in
          ls_y line = scan_y_fl rnd k miny s
          /\ ls_y line <= maxy
          /\ ls_x0 line = minx /\ ls_x1 line = maxx)
    /\ ((forall k, (k < n)%nat ->
           rnd (scan_y_fl rnd k miny s + s) == scan_y_fl rnd k miny s + s) ->
        n = Z.to_nat (Qfloor ((maxy - miny) / s) + 1)
        /\ forall k, (k < n)%nat ->
             scan_y_fl rnd k miny s == miny + inject_Z (Z.of_nat k) * s).
Proof.
  intros _ Hb Hs Hin Hout.
  destruct (bounds_ordered _ _ _ _ _ Hb) as [_ Hy].
  exists (map (scan_line minx maxx) (scan_ys_fl rnd n miny s)).
  split; [|split; [|split]].
  - intros fuel Hf. eexists. unfold scan_fl. rewrite Hb.
    rewrite (scan_loop_fl_run rnd _ minx maxx maxy s n) by assumption.
    reflexivity.
  - rewrite length_map. apply scan_ys_fl_length.
  - intros k Hk. cbv zeta.
    assert (Hnth : nth k (map (scan_line minx maxx) (scan_ys_fl rnd n miny s))
                     (scan_line 0 0 0)
                   = scan_line minx maxx (scan_y_fl rnd k miny s)).
    { rewrite <- (scan_ys_fl_nth rnd n s miny k Hk).
      rewrite <- (map_nth (scan_line minx maxx)).
      apply nth_indep. rewrite length_map, scan_ys_fl_length. exact Hk. }
    rewrite Hnth. simpl. repeat split. apply Hin. exact Hk.
  - intro He.
    assert (Hv : forall k, (k <= n)%nat ->
                   scan_y_fl rnd k miny s == miny + inject_Z (Z.of_nat k) * s)
      by (apply scan_y_fl_exact; exact He).
    split.
    + apply (exit_index_exact miny maxy s n Hs Hy).
      * intros k Hk. rewrite <- (Hv k) by lia. apply Hin. exact Hk.
      * rewrite <- (Hv n) by lia. exact Hout.
    + intros k Hk. apply Hv. lia.
Qed.

Lemma scan_lines_of_rounded_sums_witness :
  exists scanned : list LineString,
    (forall fuel, (11 < fuel)%nat ->
       exists lines,
         @scan_fl ExactKernel PlanarProjector Binary64.round fuel
           unit_square_polygon tenth = Ok (scanned, lines))
    /\ List.length scanned = 11%nat
    /\ (forall k, (k < 11)%nat ->
          let line := nth k scanned (scan_line 0 0 0) in
          ls_y line = scan_y_fl Binary64.round k 0 tenth
          /\ ls_y line <= 1
          /\ ls_x0 line = 0 /\ ls_x1 line = 1)
    /\ ((forall k, (k < 11)%nat ->
           Binary64.round (scan_y_fl Binary64.round k 0 tenth + tenth)
           == scan_y_fl Binary64.round k 0 tenth + tenth) ->
        11%nat = Z.to_nat (Qfloor ((1 - 0) / tenth) + 1)
        /\ forall k, (k < 11)%nat ->
             scan_y_fl Binary64.round k 0 tenth
             == 0 + inject_Z (Z.of_nat k) * tenth).
Proof.
  apply (@scan_lines_of_rounded_sums ExactKernel PlanarProjector
           Binary64.round unit_square_polygon 0 0 1 1 tenth 11).
  - reflexivity.
  - vm_compute. reflexivity.
  - reflexivity.
  - intros k Hk.
    do 11 (destruct k as [|k];
           [apply Qle_bool_imp_le; vm_compute; reflexivity|]).
    lia.
  - vm_compute. reflexivity.
Defined.

(** C4, as the specification has it, fails: on the unit square with the
    spacing 0.1 the loop builds 11 scan lines, and
    [floor((maxy - miny) / spacing) + 1] is 10. *)
Lemma rounded_sums_add_a_scan_line :
  0 < tenth
  /\ (exists scanned lines,
        @scan_fl ExactKernel PlanarProjector Binary64.round 12
          unit_square_polygon tenth = Ok (scanned, lines)
        /\ List.length scanned = 11%nat)
  /\ Z.to_nat (Qfloor ((1 - 0) / tenth) + 1) = 10%nat.
Proof.
  split; [reflexivity|]. split; [|vm_compute; reflexivity].
  eexists. eexists. split; vm_compute; reflexivity.
Qed.




(* ------------------------------------------------------------------ *)
(** ** The UTM zone with rounded arithmetic *)

Lemma py_int_nonneg (q : Q) : 0 <= q -> py_int q = Qfloor q.
Proof.
  intro H. unfold py_int. rewrite (proj2 (Qle_bool_iff _ _) H). reflexivity.
Qed.

(** X1 (UTM zone).  With the sum [lon + 180] and the quotient by 6
    rounded, by a monotone rounding that keeps 0, 60 and 360:
    for a longitude from -180 to 180, [get_utm_crs] picks a zone from 1
    to 61, in the 326xx series for a latitude that is not negative and in
    the 327xx series otherwise.  When the sum and the quotient are exact
    the zone is that of the six-degree band of the longitude, and at
    most 60 below 180. *)
Theorem utm_zone_with_rounding (rnd : Q -> Q) (lat lon : Q) :
  monotone rnd ->
  representable rnd 0 -> representable rnd 60 -> representable rnd 360 ->
  -180 <= lon <= 180 ->
  exists z : Z,
    (1 <= z <= 61)%Z
    /\ (0 <= lat -> get_utm_crs_fl rnd lat lon = EPSG (32600 + z))
    /\ (lat < 0 -> get_utm_crs_fl rnd lat lon = EPSG (32700 + z))
    /\ (rnd (lon + 180) == lon + 180 ->
        rnd (rnd (lon + 180) / 6) == rnd (lon + 180) / 6 ->
        inject_Z (6 * (z - 1)) <= lon + 180 < inject_Z (6 * z)
        /\ (lon < 180 -> (z <= 60)%Z)).
Proof.
  intros Hm H0 H60 H360 [Hlo Hhi]. unfold representable in *.
  set (t := rnd (lon + 180)).
  set (q := rnd (t / 6)).
  assert (Ht : 0 <= t <= 360).
  { unfold t. split.
    - rewrite <- H0. apply Hm. lra.
    - rewrite <- H360. apply Hm. lra. }
  assert (Hq : 0 <= q <= 60).
  { unfold q. split.
    - rewrite <- H0. apply Hm. apply Qle_shift_div_l; [reflexivity | lra].
    - rewrite <- H60. apply Hm. apply Qle_shift_div_r; [reflexivity | lra]. }
  assert (Hint : py_int q = Qfloor q) by (apply py_int_nonneg; apply Hq).
  assert (Hf0 : (0 <= Qfloor q)%Z).
  { change 0%Z with (Qfloor 0). apply Qfloor_resp_le. apply Hq. }
  assert (Hf60 : (Qfloor q <= 60)%Z).
  { change 60%Z with (Qfloor 60). apply Qfloor_resp_le. apply Hq. }
  exists (Qfloor q + 1)%Z.
  split; [lia|]. split; [|split].
  - intro Hlat. unfold get_utm_crs_fl. fold t q. rewrite Hint.
    rewrite (proj2 (Qle_bool_iff _ _) Hlat). reflexivity.
  - intro Hlat. unfold get_utm_crs_fl. fold t q. rewrite Hint.
    rewrite (proj2 (Qle_bool_false _ _) Hlat). reflexivity.
  - intros E1 E2. fold t in E1, E2. fold q in E2.
    assert (Hl : inject_Z (Qfloor q) <= q) by apply Qfloor_le.
    assert (Hh : q < inject_Z (Qfloor q + 1)) by apply Qlt_floor.
    assert (Eq6 : q * 6 == lon + 180).
    { rewrite E2, <- E1. field. }
    assert (Hband : inject_Z (6 * (Qfloor q + 1 - 1)) <= lon + 180
                    < inject_Z (6 * (Qfloor q + 1))).
    { rewrite !inject_Z_mult.
      replace (Qfloor q + 1 - 1)%Z with (Qfloor q) by lia.
      change (inject_Z 6) with 6. split; lra. }
    split; [exact Hband|].
    intro H180.
    assert (H : inject_Z (6 * (Qfloor q + 1 - 1)) < inject_Z 360).
    { change (inject_Z 360) with 360. lra. }
    rewrite <- Zlt_Qlt in H. lia.
Qed.

Lemma utm_zone_with_rounding_witness :
  exists z : Z,
    (1 <= z <= 61)%Z
    /\ (0 <= 10 ->
        get_utm_crs_fl Binary64.round 10 below_180 = EPSG (32600 + z))
    /\ (10 < 0 ->
        get_utm_crs_fl Binary64.round 10 below_180 = EPSG (32700 + z))
    /\ (Binary64.round (below_180 + 180) == below_180 + 180 ->
        Binary64.round (Binary64.round (below_180 + 180) / 6)
        == Binary64.round (below_180 + 180) / 6 ->
        inject_Z (6 * (z - 1)) <= below_180 + 180 < inject_Z (6 * z)
        /\ (below_180 < 180 -> (z <= 60)%Z)).
Proof.
  apply (utm_zone_with_rounding Binary64.round 10 below_180).
  - exact round_monotone.
  - vm_compute. reflexivity.
  - vm_compute. reflexivity.
  - vm_compute. reflexivity.
  - split; apply Qle_bool_imp_le; vm_compute; reflexivity.
Defined.

(** The largest double below 180 is put in zone 61: the sum
    [lon + 180] rounds to 360. *)
Lemma zone_61_below_180 :
  below_180 < 180
  /\ Binary64.round (below_180 + 180) = 360
  /\ get_utm_crs_fl Binary64.round 10 below_180 = EPSG 32661.
Proof. repeat split; vm_compute; reflexivity. Qed.

